(** * useRefHistory: a shallow embedding of the composable and its reactive runtime

    The composable [useRefHistory] (src/composables/useRefHistory.ts) keeps a
    bounded list of the past values of a Vue ref together with an undo and a
    redo operation.  Its code is a handful of closures registered with Vue's
    reactivity runtime: a [watch] callback on the source ref, a [watchEffect]
    on the capacity, and [nextTick] callbacks that reset two flags.

    The development has three layers.
    - The closures of the source file, one definition each, under the names
      of the source: [clone], [handler] (the [watch] callback), [undo],
      [redo], [capacityEffect] (the [watchEffect] body), [useRefHistory].
    - The part of Vue that decides when those closures run: ref setters that
      compare with [Object.is], the scheduler queue of pre-flush jobs
      ([queueJob], FIFO, no duplicates), the microtask queue ([nextTick]),
      and dependency tracking of the [watchEffect].
    - Traces: a caller performs [Call]s and awaits [nextTick()]; a settling
      point is the state right after such an await.

    Values of the cell range over a type [T] with decidable equality: the
    JSON-stable primitives (finite numbers, strings, booleans, null), on
    which [JSON.parse(JSON.stringify v)] returns [v] and [Object.is] is
    equality.  [Date.now()] is an input: every call and every tick carries
    the clock reading it observes.

    What the model takes from Vue 3:
    - a ref setter does nothing when the new value is the old one, and
      otherwise notifies the subscribers of the ref;
    - [watch(source, cb)] and [watchEffect(fn)] queue a pre-flush job when
      notified; the queue is first in, first out, holds a job at most once,
      and is run by one microtask, including the jobs queued meanwhile;
    - the [watch] job calls [cb(newValue, oldValue)] only when the value
      differs from the one it saw last;
    - [watchEffect] runs [fn] once at creation; after a run it is
      subscribed to what that run has read, and a write [fn] makes to
      something it is subscribed to does not queue it again;
    - [nextTick(cb)] runs [cb] after the scheduled flush, [await nextTick()]
      resumes after every microtask queued before it. *)

From Stdlib Require Import ZArith List Lia Bool.
From Stdlib Require Strings.String.
From stdpp Require Import base decidable list.
Import ListNotations.
Import String.StringSyntax.
Delimit Scope string_scope with string.

Local Open Scope Z_scope.

(** ** Data *)

(** [interface HistoryRecord { value: T; timestamp: number }] *)
Record HistoryRecord (T : Type) : Type := mkRecord {
  value : T;
  timestamp : Z
}.
Arguments mkRecord {T} _ _.
Arguments value {T} _.
Arguments timestamp {T} _.

(** The resolved capacity, [toValue(capacity)]: a JS number.  The model keeps
    the integers and [Infinity] (the default); negative integers are kept so
    that the comparisons and [slice] are written as JS evaluates them. *)
Inductive Capacity : Type :=
  | Finite (n : Z)
  | Infinity.

#[global] Instance Capacity_eq_dec : EqDecision Capacity.
Proof. solve_decision. Defined.

(** Jobs of Vue's scheduler queue: the [watch(source, ...)] job and the
    [watchEffect] job. *)
Inductive Job : Type :=
  | WatchSource
  | CapacityEffect.

Definition Job_eqb (a b : Job) : bool :=
  match a, b with
  | WatchSource, WatchSource => true
  | CapacityEffect, CapacityEffect => true
  | _, _ => false
  end.

(** A bound on the runs a queue can cause: the [watch] job can queue the
    effect once more, the effect queues nothing. *)
Definition jobWeight (j : Job) : nat :=
  match j with
  | WatchSource => 2
  | CapacityEffect => 1
  end.

Fixpoint weight (q : list Job) : nat :=
  match q with
  | [] => 0
  | j :: q' => jobWeight j + weight q'
  end.

(** Microtasks: the scheduler's flush, and the two [nextTick] callbacks
    [() => (doingUndo = false)] and [() => { doingRedo = false }]. *)
Inductive Microtask : Type :=
  | FlushJobs
  | ResetUndo
  | ResetRedo.

Definition Microtask_eqb (a b : Microtask) : bool :=
  match a, b with
  | FlushJobs, FlushJobs => true
  | ResetUndo, ResetUndo => true
  | ResetRedo, ResetRedo => true
  | _, _ => false
  end.

(** Everything [useRefHistory] closes over, plus the runtime state that
    decides when its closures run. *)
Record Tracker (T : Type) : Type := mkTracker {
  source : T;                          (* source.value *)
  capacity : Capacity;                 (* toValue(capacity) *)
  history : list (HistoryRecord T);    (* history.value, index 0 first *)
  future : list (HistoryRecord T);     (* future.value *)
  doingUndo : bool;
  doingRedo : bool;
  lastChanged : Z;
  oldValue : T;                        (* the value watch() saw last *)
  lengthTracked : bool;                (* watchEffect subscribed to the live history array *)
  queue : list Job;                    (* scheduler queue *)
  currentFlushPromise : bool;          (* a flush is scheduled or running *)
  microtasks : list Microtask
}.
Arguments mkTracker {T} _ _ _ _ _ _ _ _ _ _ _ _.
Arguments source {T} _.
Arguments capacity {T} _.
Arguments history {T} _.
Arguments future {T} _.
Arguments doingUndo {T} _.
Arguments doingRedo {T} _.
Arguments lastChanged {T} _.
Arguments oldValue {T} _.
Arguments lengthTracked {T} _.
Arguments queue {T} _.
Arguments currentFlushPromise {T} _.
Arguments microtasks {T} _.

(** ** JS primitives used by the source *)

(** [cap === n] for a resolved capacity and an integer. *)
Definition cap_is (cap : Capacity) (n : Z) : bool :=
  match cap with
  | Finite c => c =? n
  | Infinity => false
  end.

(** [len > cap]. *)
Definition exceeds (len : nat) (cap : Capacity) : bool :=
  match cap with
  | Finite c => c <? Z.of_nat len
  | Infinity => false
  end.

(** [arr.slice(0, e)]: a negative end counts from the end of the array. *)
Definition slice0 {A : Type} (e : Capacity) (l : list A) : list A :=
  match e with
  | Finite e =>
      if e <? 0 then take (Z.to_nat (Z.of_nat (length l) + e)) l
      else take (Z.to_nat e) l
  | Infinity => l
  end.

(** [JSON.parse(JSON.stringify(value))]: the identity on the values the
    model ranges over. *)
Definition clone {A : Type} (x : A) : A := x.

Section Composable.

Context {T : Type} `{EqDecision T}.

Local Abbreviation Rec := (HistoryRecord T).
Local Abbreviation St := (Tracker T).

(** Field updates. *)
Definition set_source (v : T) (s : St) : St :=
  mkTracker v (capacity s) (history s) (future s) (doingUndo s) (doingRedo s)
    (lastChanged s) (oldValue s) (lengthTracked s) (queue s)
    (currentFlushPromise s) (microtasks s).
Definition set_capacity (c : Capacity) (s : St) : St :=
  mkTracker (source s) c (history s) (future s) (doingUndo s) (doingRedo s)
    (lastChanged s) (oldValue s) (lengthTracked s) (queue s)
    (currentFlushPromise s) (microtasks s).
Definition set_history (h : list Rec) (s : St) : St :=
  mkTracker (source s) (capacity s) h (future s) (doingUndo s) (doingRedo s)
    (lastChanged s) (oldValue s) (lengthTracked s) (queue s)
    (currentFlushPromise s) (microtasks s).
Definition set_future (f : list Rec) (s : St) : St :=
  mkTracker (source s) (capacity s) (history s) f (doingUndo s) (doingRedo s)
    (lastChanged s) (oldValue s) (lengthTracked s) (queue s)
    (currentFlushPromise s) (microtasks s).
Definition set_doingUndo (b : bool) (s : St) : St :=
  mkTracker (source s) (capacity s) (history s) (future s) b (doingRedo s)
    (lastChanged s) (oldValue s) (lengthTracked s) (queue s)
    (currentFlushPromise s) (microtasks s).
Definition set_doingRedo (b : bool) (s : St) : St :=
  mkTracker (source s) (capacity s) (history s) (future s) (doingUndo s) b
    (lastChanged s) (oldValue s) (lengthTracked s) (queue s)
    (currentFlushPromise s) (microtasks s).
Definition set_lastChanged (t : Z) (s : St) : St :=
  mkTracker (source s) (capacity s) (history s) (future s) (doingUndo s)
    (doingRedo s) t (oldValue s) (lengthTracked s) (queue s)
    (currentFlushPromise s) (microtasks s).
Definition set_oldValue (v : T) (s : St) : St :=
  mkTracker (source s) (capacity s) (history s) (future s) (doingUndo s)
    (doingRedo s) (lastChanged s) v (lengthTracked s) (queue s)
    (currentFlushPromise s) (microtasks s).
Definition set_lengthTracked (b : bool) (s : St) : St :=
  mkTracker (source s) (capacity s) (history s) (future s) (doingUndo s)
    (doingRedo s) (lastChanged s) (oldValue s) b (queue s)
    (currentFlushPromise s) (microtasks s).
Definition set_queue (q : list Job) (s : St) : St :=
  mkTracker (source s) (capacity s) (history s) (future s) (doingUndo s)
    (doingRedo s) (lastChanged s) (oldValue s) (lengthTracked s) q
    (currentFlushPromise s) (microtasks s).
Definition set_currentFlushPromise (b : bool) (s : St) : St :=
  mkTracker (source s) (capacity s) (history s) (future s) (doingUndo s)
    (doingRedo s) (lastChanged s) (oldValue s) (lengthTracked s) (queue s)
    b (microtasks s).
Definition set_microtasks (m : list Microtask) (s : St) : St :=
  mkTracker (source s) (capacity s) (history s) (future s) (doingUndo s)
    (doingRedo s) (lastChanged s) (oldValue s) (lengthTracked s) (queue s)
    (currentFlushPromise s) m.

(** ** The reactive runtime *)

(** [queueFlush]: schedule one flush microtask unless one is scheduled or
    running. *)
Definition queueFlush (s : St) : St :=
  if currentFlushPromise s then s
  else set_microtasks (microtasks s ++ [FlushJobs])
         (set_currentFlushPromise true s).

(** [queueJob]: append the job unless it is already waiting. *)
Definition queueJob (j : Job) (s : St) : St :=
  if existsb (Job_eqb j) (queue s) then s
  else queueFlush (set_queue (queue s ++ [j]) s).

(** [nextTick(cb)]: [cb] runs after the scheduled flush, or as the next
    microtask when none is scheduled; in both cases after everything already
    in the microtask queue. *)
Definition nextTick (cb : Microtask) (s : St) : St :=
  set_microtasks (microtasks s ++ [cb]) s.

(** A change of the length of the array behind [history.value] notifies the
    [watchEffect] only while the effect is subscribed to that array. *)
Definition historyChanged (s : St) : St :=
  if lengthTracked s then queueJob CapacityEffect s else s.

(** [history.value.pop()] *)
Definition history_pop (s : St) : St :=
  match history s with
  | [] => s
  | _ :: _ => historyChanged (set_history (removelast (history s)) s)
  end.

(** [history.value.unshift(r)] *)
Definition history_unshift (r : Rec) (s : St) : St :=
  historyChanged (set_history (r :: history s) s).

(** The setter of the source ref: [source.value = v].  Nothing happens when
    [Object.is(v, source.value)]. *)
Definition setSource (v : T) (s : St) : St :=
  if bool_decide (v = source s) then s
  else queueJob WatchSource (set_source v s).

(** A write to the reactive state the capacity is read from (a ref, or the
    ref behind a getter). *)
Definition setCapacity (c : Capacity) (s : St) : St :=
  if bool_decide (c = capacity s) then s
  else queueJob CapacityEffect (set_capacity c s).

(** ** The closures of useRefHistory.ts *)

(** The [watch] callback, lines 35-65. *)
Definition handler (newVal old : T) (now : Z) (s : St) : St :=
  if doingUndo s || doingRedo s then s
  else
    let s := set_future [] s in
    let cap := capacity s in
    if cap_is cap 0 then s
    else
      let s :=
        if cap_is cap (Z.of_nat (length (history s))) then history_pop s
        else s in
      let s :=
        history_unshift
          (clone {| value := old; timestamp := lastChanged s |}) s in
      set_lastChanged now s.

(** [undo], lines 68-90. *)
Definition undo (now : Z) (s : St) : St :=
  let s := set_doingUndo true s in
  match history s with
  | [] => nextTick ResetUndo s
  | record :: rest =>
      let s := historyChanged (set_history rest s) in
      let s :=
        set_future
          (clone {| value := source s; timestamp := now |} :: future s) s in
      let s := setSource (clone (value record)) s in
      nextTick ResetUndo s
  end.

(** [redo], lines 93-108. *)
Definition redo (now : Z) (s : St) : St :=
  let s := set_doingRedo true s in
  match future s with
  | [] => nextTick ResetRedo s
  | record :: rest =>
      let s := set_future rest s in
      let s :=
        history_unshift
          (clone {| value := source s; timestamp := now |}) s in
      let s := setSource (clone (value record)) s in
      nextTick ResetRedo s
  end.

(** The [watchEffect] body, lines 111-118.  A run that does not truncate has
    read [history.value.length] of the live array and stays subscribed to
    it.  A run that truncates has read the length of the array it then
    replaces; the write to [history.value] happens while the effect itself
    runs, so it does not schedule the effect again, and the new array has
    not been read by the effect: until its next run the effect is subscribed
    to the capacity only. *)
Definition capacityEffect (s : St) : St :=
  let cap := capacity s in
  if exceeds (length (history s)) cap
  then set_lengthTracked false (set_history (slice0 cap (history s)) s)
  else set_lengthTracked true s.

(** The job [watch] queues: call the callback when the value differs from
    the one seen last, and remember the new one. *)
Definition watchJob (now : Z) (s : St) : St :=
  let newValue := source s in
  if bool_decide (newValue = oldValue s) then s
  else set_oldValue newValue (handler newValue (oldValue s) now s).

Definition runJob (now : Z) (j : Job) (s : St) : St :=
  match j with
  | WatchSource => watchJob now s
  | CapacityEffect => capacityEffect s
  end.

(** [flushJobs]: run the queue in order, including the jobs queued while it
    runs.  A [watch] job may queue the effect once and the effect queues
    nothing, so twice the length of the queue bounds the number of runs
    ([flushLoop_drains]). *)
Fixpoint flushLoop (fuel : nat) (now : Z) (s : St) : St :=
  match fuel with
  | O => s
  | S fuel' =>
      match queue s with
      | [] => s
      | j :: q => flushLoop fuel' now (runJob now j (set_queue q s))
      end
  end.

Definition flushJobs (now : Z) (s : St) : St :=
  set_currentFlushPromise false (flushLoop (2 * length (queue s)) now s).

Definition runMicrotask (now : Z) (m : Microtask) (s : St) : St :=
  match m with
  | FlushJobs => flushJobs now s
  | ResetUndo => set_doingUndo false s
  | ResetRedo => set_doingRedo false s
  end.

Fixpoint drain (now : Z) (ms : list Microtask) (s : St) : St :=
  match ms with
  | [] => s
  | m :: ms' => drain now ms' (runMicrotask now m s)
  end.

(** [await nextTick()]: every microtask in the queue has run when the caller
    resumes. *)
Definition tick (now : Z) (s : St) : St :=
  drain now (microtasks s) (set_microtasks [] s).

(** [useRefHistory(source, capacity)] with [source.value = v]: the initial
    bindings, then the first, synchronous run of the [watchEffect]. *)
Definition useRefHistory (v : T) (cap : Capacity) (now : Z) : St :=
  capacityEffect
    {| source := v; capacity := cap; history := []; future := [];
       doingUndo := false; doingRedo := false; lastChanged := now;
       oldValue := v; lengthTracked := false; queue := [];
       currentFlushPromise := false; microtasks := [] |}.

(** ** Callers *)

(** What a caller can do between two awaits. *)
Inductive Call : Type :=
  | SetSource (v : T)
  | SetCapacity (c : Capacity)
  | Undo (now : Z)
  | Redo (now : Z).

Definition call (c : Call) (s : St) : St :=
  match c with
  | SetSource v => setSource v s
  | SetCapacity c => setCapacity c s
  | Undo now => undo now s
  | Redo now => redo now s
  end.

(** One call followed by [await nextTick()], as the test-suite does. *)
Definition settle (c : Call) (now : Z) (s : St) : St :=
  tick now (call c s).

(** The states a caller can produce: it makes calls and awaits in any
    order, several calls between two awaits or none. *)
Inductive Reachable : St -> Prop :=
  | Reachable_fresh v cap now : Reachable (useRefHistory v cap now)
  | Reachable_call c s : Reachable s -> Reachable (call c s)
  | Reachable_tick now s : Reachable s -> Reachable (tick now s).

(** The settling points: the fresh tracker, and every state observed right
    after an await. *)
Inductive Settled : St -> Prop :=
  | Settled_fresh v cap now : Settled (useRefHistory v cap now)
  | Settled_tick now s : Reachable s -> Settled (tick now s).

(** A run of external mutations, each one settled before the next: the pair
    is the value assigned and the clock reading of the tick. *)
Fixpoint mutate (ms : list (T * Z)) (s : St) : St :=
  match ms with
  | [] => s
  | (v, now) :: ms' => mutate ms' (settle (SetSource v) now s)
  end.

(** A run of calls of any kind, each one settled before the next. *)
Fixpoint run (cs : list (Call * Z)) (s : St) : St :=
  match cs with
  | [] => s
  | (c, now) :: cs' => run cs' (settle c now s)
  end.

(** The call leaves the capacity alone. *)
Definition keepsCapacity (c : Call) : bool :=
  match c with
  | SetCapacity _ => false
  | _ => true
  end.

(** Every assignment of the run mutates the cell: it stores a value other
    than the one the cell holds. *)
Fixpoint mutating (cur : T) (ms : list (T * Z)) : Prop :=
  match ms with
  | [] => True
  | (v, _) :: ms' => v <> cur /\ mutating v ms'
  end.

(** ** Observations *)

Definition historyValues (s : St) : list T := map value (history s).
Definition futureValues (s : St) : list T := map value (future s).

(** Nothing is pending: no job, no microtask, both flags down, the watcher
    has seen the current value, and the effect, if subscribed to the live
    array, has found it within the capacity. *)
Definition quiescent (s : St) : bool :=
  match queue s with [] => true | _ :: _ => false end
  && match microtasks s with [] => true | _ :: _ => false end
  && negb (currentFlushPromise s)
  && negb (doingUndo s)
  && negb (doingRedo s)
  && bool_decide (oldValue s = source s)
  && implb (lengthTracked s)
       (negb (exceeds (length (history s)) (capacity s))).

(** Between awaits whatever is out of step has its job or its microtask
    waiting.  A queued job has a flush scheduled: *)
Definition flushScheduled (s : St) : Prop :=
  queue s = [] \/ currentFlushPromise s = true.

(** a scheduled flush is in the microtask queue: *)
Definition flushWaiting (s : St) : Prop :=
  currentFlushPromise s = true ->
  existsb (Microtask_eqb FlushJobs) (microtasks s) = true.

(** a value the watcher has not seen has the [watch] job queued: *)
Definition watcherCurrent (s : St) : Prop :=
  oldValue s = source s \/ existsb (Job_eqb WatchSource) (queue s) = true.

(** an overflow of the array the effect is subscribed to has the effect
    queued: *)
Definition effectCurrent (s : St) : Prop :=
  lengthTracked s = true ->
  exceeds (length (history s)) (capacity s) = true ->
  existsb (Job_eqb CapacityEffect) (queue s) = true.

(** and a raised flag has its reset waiting. *)
Definition undoReset (s : St) : Prop :=
  doingUndo s = true ->
  existsb (Microtask_eqb ResetUndo) (microtasks s) = true.

Definition redoReset (s : St) : Prop :=
  doingRedo s = true ->
  existsb (Microtask_eqb ResetRedo) (microtasks s) = true.

Definition Coherent (s : St) : Prop :=
  flushScheduled s /\ flushWaiting s /\ watcherCurrent s /\
  effectCurrent s /\ undoReset s /\ redoReset s.

(** What [handler] leaves in [history] when it records [old]. *)
Definition recorded (old : T) (s : St) : list Rec :=
  {| value := old; timestamp := lastChanged s |}
  :: (if cap_is (capacity s) (Z.of_nat (length (history s)))
      then removelast (history s) else history s).

End Composable.

(** A capacity a caller may legally supply: a non-negative integer or
    [Infinity]. *)
Definition legal (cap : Capacity) : Prop :=
  match cap with
  | Finite c => 0 <= c
  | Infinity => True
  end.

(** [n <= cap]. *)
Definition at_least (n : Z) (cap : Capacity) : Prop :=
  match cap with
  | Finite c => n <= c
  | Infinity => True
  end.

(** [min(n, cap)] for a count [n]. *)
Definition cap_min (n : nat) (cap : Capacity) : nat :=
  match cap with
  | Finite c => Nat.min n (Z.to_nat c)
  | Infinity => n
  end.

(** ** Runs on an integer cell

    The cell starts at 0 with capacity 4 at clock 0; 1, 2 and 3 are
    assigned at clocks 10, 20 and 30, each followed by an await. *)
Module Scenario.

Definition assigned : Tracker Z :=
  mutate [(1, 10); (2, 20); (3, 30)] (useRefHistory 0 (Finite 4) 0).

(** [undo()] at clock 40. *)
Definition undone : Tracker Z := settle (Undo 40) 41 assigned.

(** The capacity ref is set to 1 at clock 50: the effect truncates. *)
Definition shrunk : Tracker Z := settle (SetCapacity (Finite 1)) 50 undone.

(** [redo()] at clock 60. *)
Definition redone : Tracker Z := settle (Redo 60) 61 shrunk.

(** Instead of shrinking, the cell is assigned 5 at clock 50 after the
    undo. *)
Definition reassigned : Tracker Z := settle (SetSource 5) 50 undone.

(** The capacity ref is set to 0 after the undo, then [redo()]. *)
Definition emptied : Tracker Z :=
  settle (Redo 60) 61 (settle (SetCapacity (Finite 0)) 50 undone).

(** The state in which the [watch] job calls [handler] once 7 has been
    assigned to the cell of [emptied]: the tick has taken the microtasks and
    the flush has taken the job off the queue. *)
Definition inFlight : Tracker Z :=
  set_queue [] (set_microtasks [] (setSource 7 emptied)).

(** The cell goes from 0 to 1 and back to 0. *)
Definition returned : Tracker Z :=
  mutate [(1, 10); (0, 20)] (useRefHistory 0 Infinity 0).

End Scenario.

(** ** Further observations *)

(** What a capacity that is never changed keeps of a list of records,
    newest first.  With a negative capacity neither test of the callback
    ever holds and the effect, after its first run, is not run again:
    nothing is dropped. *)
Definition kept {A : Type} (cap : Capacity) (l : list A) : list A :=
  match cap with
  | Finite c => if c <? 0 then l else take (Z.to_nat c) l
  | Infinity => l
  end.

(** The same for a legal capacity. *)
Definition keep {A : Type} (cap : Capacity) (l : list A) : list A :=
  match cap with
  | Finite c => take (Z.to_nat c) l
  | Infinity => l
  end.

(** The smallest of a number and a run of capacities. *)
Definition lowest (cs : list Capacity) (n : nat) : nat :=
  fold_left cap_min cs n.

Section Observations.

Context {T : Type} `{EqDecision T}.

(** The values in the order they were current, newest first: what
    [redo()] can bring back, the cell, what [undo()] can bring back. *)
Definition timeline (s : Tracker T) : list T :=
  rev (futureValues s) ++ source s :: historyValues s.

Definition undoOrRedo (c : @Call T) : bool :=
  match c with
  | Undo _ | Redo _ => true
  | _ => false
  end.

(** No value of the list is followed by an equal one. *)
Fixpoint distinctNeighbours (l : list T) : Prop :=
  match l with
  | x :: l' =>
      match l' with
      | y :: _ => x <> y /\ distinctNeighbours l'
      | [] => True
      end
  | [] => True
  end.

(** Assignments made one after the other with no await between them. *)
Definition assign (vs : list T) (s : Tracker T) : Tracker T :=
  fold_left (fun s v => setSource v s) vs s.

(** The records of a run of assignments, newest first: every value with the
    clock reading at which it became the cell's value, the initial value
    with the reading at creation. *)
Definition assignedRecords (v0 : T) (now0 : Z) (ms : list (T * Z)) :
    list (HistoryRecord T) :=
  rev (map (fun p => {| value := fst p; timestamp := snd p |})
         ((v0, now0) :: ms)).

(** A run of capacity changes, each one settled. *)
Definition resize (cs : list (Capacity * Z)) (s : Tracker T) : Tracker T :=
  run (map (fun p => (SetCapacity (fst p), snd p)) cs) s.

(** [undo()] and [redo()] have room: the effect, if it watches the array,
    will not find it over the capacity whatever is redone. *)
Definition roomy (s : Tracker T) : Prop :=
  lengthTracked s = true ->
  exceeds (length (history s) + length (future s)) (capacity s) = false.

End Observations.

(** ** The clone utility on JavaScript values

    [clone], lines 131-133, is [JSON.parse(JSON.stringify(value))].  The
    claims range over values on which it is the identity; this part models
    it on the values a cell can hold otherwise.  JSON text is represented by
    the document it denotes: [JSON.stringify] produces a document or
    returns [undefined], [JSON.parse] reads a document and throws a
    [SyntaxError] on anything else, among it the string ["undefined"] its
    argument [undefined] is converted to.  Numbers are the integers and
    the four values [NaN], [Infinity], [-Infinity], [-0]; objects are plain
    ones, with no [toJSON] and no cycle, their properties listed in
    enumeration order under distinct keys. *)
Module Js.

Inductive Num : Type :=
  | Int (z : Z)
  | NaN
  | PosInfinity
  | NegInfinity
  | NegZero.

Inductive Prim : Type :=
  | Undefined
  | Null
  | Bool (b : bool)
  | Number (n : Num)
  | Str (s : String.string).

#[local] Unset Elimination Schemes.

Inductive Value : Type :=
  | Primitive (p : Prim)
  | Function
  | Array (elements : list Value)
  | Object (properties : list (String.string * Value)).

Inductive Json : Type :=
  | JNull
  | JBool (b : bool)
  | JNumber (z : Z)
  | JString (s : String.string)
  | JArray (elements : list Json)
  | JObject (members : list (String.string * Json)).

#[local] Set Elimination Schemes.

#[global] Instance string_eq_dec : EqDecision String.string := String.string_dec.

#[global] Instance Num_eq_dec : EqDecision Num.
Proof. solve_decision. Defined.

(** [Object.is] on primitives: [NaN] is [NaN], [-0] is not [0]. *)
#[global] Instance Prim_eq_dec : EqDecision Prim.
Proof. solve_decision. Defined.

Definition stringifyPrim (p : Prim) : option Json :=
  match p with
  | Undefined => None
  | Null => Some JNull
  | Bool b => Some (JBool b)
  | Number (Int z) => Some (JNumber z)
  | Number NegZero => Some (JNumber 0)
  | Number _ => Some JNull
  | Str s => Some (JString s)
  end.

(** The members of an object: a property whose value has no JSON text is
    left out. *)
Definition membersOf (f : Value -> option Json) :
    list (String.string * Value) -> list (String.string * Json) :=
  fix go ps :=
    match ps with
    | [] => []
    | (k, x) :: ps' =>
        match f x with
        | Some j => (k, j) :: go ps'
        | None => go ps'
        end
    end.

(** [JSON.stringify(v)]; [None] is the result [undefined].  In an array a
    value with no JSON text becomes [null]. *)
Fixpoint JSON_stringify (v : Value) : option Json :=
  match v with
  | Primitive p => stringifyPrim p
  | Function => None
  | Array l =>
      Some (JArray (map (fun x => match JSON_stringify x with
                                  | Some j => j
                                  | None => JNull
                                  end) l))
  | Object ps => Some (JObject (membersOf JSON_stringify ps))
  end.

Fixpoint valueOf (j : Json) : Value :=
  match j with
  | JNull => Primitive Null
  | JBool b => Primitive (Bool b)
  | JNumber z => Primitive (Number (Int z))
  | JString s => Primitive (Str s)
  | JArray l => Array (map valueOf l)
  | JObject ms => Object (map (fun m => (fst m, valueOf (snd m))) ms)
  end.

(** [JSON.parse(text)]; [None] is the [SyntaxError] thrown when [text] is
    not a document. *)
Definition JSON_parse (text : option Json) : option Value :=
  match text with
  | Some j => Some (valueOf j)
  | None => None
  end.

(** [function clone(value) { return JSON.parse(JSON.stringify(value)); }] *)
Definition clone (value : Value) : option Value :=
  JSON_parse (JSON_stringify value).

(** The values [clone] returns unchanged. *)
Definition stablePrim (p : Prim) : bool :=
  match p with
  | Undefined => false
  | Number (Int _) => true
  | Number _ => false
  | _ => true
  end.

Fixpoint stable (v : Value) : bool :=
  match v with
  | Primitive p => stablePrim p
  | Function => false
  | Array l => forallb stable l
  | Object ps => forallb (fun kv => stable (snd kv)) ps
  end.

(** [o[k]]: [undefined] when [o] has no such property. *)
Definition get (o : Value) (k : String.string) : Value :=
  match o with
  | Object ps =>
      match find (fun kv => String.eqb (fst kv) k) ps with
      | Some kv => snd kv
      | None => Primitive Undefined
      end
  | _ => Primitive Undefined
  end.

(** The cell holds primitives. *)
Definition asPrim (v : Value) : Prim :=
  match v with
  | Primitive p => p
  | _ => Undefined
  end.

Definition asTime (v : Value) : Z :=
  match v with
  | Primitive (Number (Int z)) => z
  | _ => 0
  end.

(** The object literal [{ value: v, timestamp: t }] and the reading of its
    two properties. *)
Definition objectOf (r : HistoryRecord Prim) : Value :=
  Object [ ("value"%string, Primitive (value r));
           ("timestamp"%string, Primitive (Number (Int (timestamp r)))) ].

Definition recordOf (o : Value) : HistoryRecord Prim :=
  {| value := asPrim (get o "value"%string);
     timestamp := asTime (get o "timestamp"%string) |}.

(** [clone({ value: v, timestamp: t })] *)
Definition cloneRecord (r : HistoryRecord Prim) : option (HistoryRecord Prim) :=
  option_map recordOf (clone (objectOf r)).

(** [clone(v)] for a primitive [v]. *)
Definition clonePrim (p : Prim) : option Prim :=
  option_map asPrim (clone (Primitive p)).

(** What a primitive is recorded as: its clone, read back from the record. *)
Definition image (p : Prim) : Prim :=
  match p with
  | Undefined => Undefined
  | Number (Int z) => Number (Int z)
  | Number NegZero => Number (Int 0)
  | Number _ => Null
  | _ => p
  end.

(** A call returns, or throws and leaves the state it has reached. *)
Inductive Outcome : Type :=
  | Returned (s : Tracker Prim)
  | Threw (s : Tracker Prim).

(** The [watch] callback, lines 35-65, with [clone] as it is. *)
Definition handler (newVal old : Prim) (now : Z) (s : Tracker Prim) : Outcome :=
  if doingUndo s || doingRedo s then Returned s
  else
    let s := set_future [] s in
    let cap := capacity s in
    if cap_is cap 0 then Returned s
    else
      let s :=
        if cap_is cap (Z.of_nat (length (history s))) then history_pop s
        else s in
      match cloneRecord {| value := old; timestamp := lastChanged s |} with
      | None => Threw s
      | Some r => Returned (set_lastChanged now (history_unshift r s))
      end.

(** [undo], lines 68-90, with [clone] as it is. *)
Definition undo (now : Z) (s : Tracker Prim) : Outcome :=
  let s := set_doingUndo true s in
  match history s with
  | [] => Returned (nextTick ResetUndo s)
  | record :: rest =>
      let s := historyChanged (set_history rest s) in
      match cloneRecord {| value := source s; timestamp := now |} with
      | None => Threw s
      | Some r =>
          let s := set_future (r :: future s) s in
          match clonePrim (value record) with
          | None => Threw s
          | Some v => Returned (nextTick ResetUndo (setSource v s))
          end
      end
  end.

(** [redo], lines 93-108, with [clone] as it is. *)
Definition redo (now : Z) (s : Tracker Prim) : Outcome :=
  let s := set_doingRedo true s in
  match future s with
  | [] => Returned (nextTick ResetRedo s)
  | record :: rest =>
      let s := set_future rest s in
      match cloneRecord {| value := source s; timestamp := now |} with
      | None => Threw s
      | Some r =>
          let s := history_unshift r s in
          match clonePrim (value record) with
          | None => Threw s
          | Some v => Returned (nextTick ResetRedo (setSource v s))
          end
      end
  end.

End Js.

(** * Proofs *)

Section Proofs.
Context {T : Type} `{EqDecision T}.
Local Abbreviation St := (Tracker T).

(** ** Quiescent states *)

Lemma quiescent_inv (s : St) :
  quiescent s = true ->
  queue s = [] /\ microtasks s = [] /\ currentFlushPromise s = false /\
  doingUndo s = false /\ doingRedo s = false /\ oldValue s = source s /\
  (lengthTracked s = true -> exceeds (length (history s)) (capacity s) = false).
Proof.
  unfold quiescent. intros Hq.
  repeat (apply andb_prop in Hq; destruct Hq as [Hq ?]).
  destruct (queue s); [|discriminate].
  destruct (microtasks s); [|discriminate].
  repeat match goal with
  | H : negb _ = true |- _ => apply negb_true_iff in H
  | H : bool_decide _ = true |- _ => apply bool_decide_eq_true in H
  end.
  repeat split; try assumption.
  intros Ht. rewrite Ht in *. simpl in *.
  match goal with H : negb _ = true |- _ => now apply negb_true_iff in H end.
Qed.

(** *** Symbolic evaluation

    Every function of the model unfolds once its state argument is a
    constructor; [crunch] evaluates a run and splits on each test the
    evaluation is stuck at. *)

#[local] Arguments set_source {T} v !s /.
#[local] Arguments set_capacity {T} c !s /.
#[local] Arguments set_history {T} h !s /.
#[local] Arguments set_future {T} f !s /.
#[local] Arguments set_doingUndo {T} b !s /.
#[local] Arguments set_doingRedo {T} b !s /.
#[local] Arguments set_lastChanged {T} t !s /.
#[local] Arguments set_oldValue {T} v !s /.
#[local] Arguments set_lengthTracked {T} b !s /.
#[local] Arguments set_queue {T} q !s /.
#[local] Arguments set_currentFlushPromise {T} b !s /.
#[local] Arguments set_microtasks {T} m !s /.
#[local] Arguments queueFlush {T} !s /.
#[local] Arguments queueJob {T} j !s /.
#[local] Arguments nextTick {T} cb !s /.
#[local] Arguments historyChanged {T} !s /.
#[local] Arguments history_pop {T} !s /.
#[local] Arguments history_unshift {T} r !s /.
#[local] Arguments setSource {T _} v !s /.
#[local] Arguments setCapacity {T} c !s /.
#[local] Arguments handler {T} newVal old now !s /.
#[local] Arguments undo {T _} now !s /.
#[local] Arguments redo {T _} now !s /.
#[local] Arguments capacityEffect {T} !s /.
#[local] Arguments watchJob {T _} now !s /.
#[local] Arguments runJob {T _} now j !s /.
#[local] Arguments flushLoop {T _} !fuel now !s /.
#[local] Arguments flushJobs {T _} now !s /.
#[local] Arguments runMicrotask {T _} now m !s /.
#[local] Arguments drain {T _} now ms !s /.
#[local] Arguments tick {T _} now !s /.
#[local] Arguments call {T _} c !s /.
#[local] Arguments settle {T _} c now !s /.
#[local] Arguments useRefHistory {T} v cap now /.
#[local] Arguments clone {A} x /.
#[local] Arguments recorded {T} old !s /.
#[local] Arguments Z.of_nat : simpl never.
#[local] Arguments Z.to_nat : simpl never.
#[local] Arguments cap_is : simpl never.
#[local] Arguments exceeds : simpl never.
#[local] Arguments slice0 : simpl never.
#[local] Arguments removelast : simpl never.

Ltac split_cond :=
  match goal with
  | |- context [if cap_is ?c ?n then _ else _] => destruct (cap_is c n) eqn:?
  | |- context [if exceeds ?n ?c then _ else _] => destruct (exceeds n c) eqn:?
  | |- context [if ?b then _ else _] => is_var b; destruct b
  | |- context [match ?h with [] => _ | _ :: _ => _ end] => is_var h; destruct h
  | |- context [bool_decide ?P] => destruct (bool_decide_reflect P)
  | |- context [if existsb ?p ?l then _ else _] =>
      is_var l; destruct (existsb p l) eqn:?
  end.
Ltac crunch :=
  repeat (cbn in *; rewrite ?existsb_app, ?orb_true_r, ?orb_false_r in *;
          try match goal with H : existsb _ _ = _ |- _ => rewrite H end;
          try split_cond).

Lemma length_removelast {A : Type} (l : list A) :
  length (removelast l) = Nat.pred (length l).
Proof.
  induction l as [|a [|b l] IH]; [reflexivity | reflexivity |].
  change (removelast (a :: b :: l)) with (a :: removelast (b :: l)).
  cbn [length] in *. rewrite IH. reflexivity.
Qed.

(** Arithmetic on capacities: contradictory tests close the goal. *)
Ltac cap_arith :=
  repeat match goal with
  | H : ?a = ?a -> _ |- _ => specialize (H eq_refl)
  end;
  repeat match goal with
  | c : Capacity |- _ => destruct c
  end;
  unfold cap_is, exceeds, legal in *;
  rewrite ?length_removelast in *;
  cbn [length] in *;
  repeat match goal with
  | H : (_ =? _) = true |- _ => apply Z.eqb_eq in H
  | H : (_ =? _) = false |- _ => apply Z.eqb_neq in H
  | H : (_ <? _) = true |- _ => apply Z.ltb_lt in H
  | H : (_ <? _) = false |- _ => apply Z.ltb_ge in H
  | |- (_ <? _) = false => apply Z.ltb_ge
  | |- (_ <? _) = true => apply Z.ltb_lt
  | |- (_ =? _) = true => apply Z.eqb_eq
  | |- (_ =? _) = false => apply Z.eqb_neq
  end;
  try discriminate; try lia.

Ltac open_state s :=
  let Hq := fresh "Hq" in
  intros Hq; apply quiescent_inv in Hq;
  destruct s as [src cap h f du dr lc ov lt q cfp mt]; cbn in *;
  destruct Hq as (-> & -> & -> & -> & -> & -> & Hlt).

(** *** One settled call from a quiescent state, in closed form *)

Lemma settle_SetSource (s : St) v now :
  quiescent s = true -> v <> source s ->
  settle (SetSource v) now s =
    if cap_is (capacity s) 0
    then mkTracker v (capacity s) (history s) [] false false (lastChanged s)
           v (lengthTracked s) [] false []
    else mkTracker v (capacity s) (recorded (source s) s) [] false false now
           v (lengthTracked s) [] false [].
Proof.
  open_state s. intros Hv.
  crunch; try congruence; try reflexivity; exfalso; cap_arith.
Qed.

Lemma settle_SetSource_same (s : St) now :
  quiescent s = true -> settle (SetSource (source s)) now s = s.
Proof.
  open_state s. crunch; congruence.
Qed.

Lemma settle_Undo_nil (s : St) t now :
  quiescent s = true -> history s = [] -> settle (Undo t) now s = s.
Proof.
  open_state s. intros ->. crunch; reflexivity.
Qed.

Lemma settle_Undo_cons (s : St) t now r rest :
  quiescent s = true -> history s = r :: rest ->
  settle (Undo t) now s =
    mkTracker (value r) (capacity s) rest
      ({| value := source s; timestamp := t |} :: future s) false false
      (lastChanged s) (value r) (lengthTracked s) [] false [].
Proof.
  open_state s. intros ->.
  crunch; try congruence; try reflexivity; exfalso; cap_arith.
Qed.

Lemma settle_Redo_nil (s : St) t now :
  quiescent s = true -> future s = [] -> settle (Redo t) now s = s.
Proof.
  open_state s. intros ->. crunch; reflexivity.
Qed.

Lemma settle_Redo_cons (s : St) t now r rest :
  quiescent s = true -> future s = r :: rest ->
  settle (Redo t) now s =
    let h' := {| value := source s; timestamp := t |} :: history s in
    if lengthTracked s && exceeds (length h') (capacity s)
    then mkTracker (value r) (capacity s) (slice0 (capacity s) h') rest
           false false (lastChanged s) (value r) false [] false []
    else mkTracker (value r) (capacity s) h' rest
           false false (lastChanged s) (value r) (lengthTracked s) [] false [].
Proof.
  open_state s. intros ->.
  crunch; try congruence; try reflexivity; exfalso; cap_arith.
Qed.

Lemma settle_SetCapacity (s : St) c now :
  quiescent s = true -> c <> capacity s ->
  settle (SetCapacity c) now s = capacityEffect (set_capacity c s).
Proof.
  open_state s. intros Hc.
  crunch; try congruence; try reflexivity.
Qed.

Lemma settle_SetCapacity_same (s : St) now :
  quiescent s = true -> settle (SetCapacity (capacity s)) now s = s.
Proof.
  open_state s. crunch; congruence.
Qed.

(** *** Settling points are quiescent *)

Lemma quiescent_intro (v : T) cap h f lc lt :
  (lt = true -> exceeds (length h) cap = false) ->
  quiescent (mkTracker v cap h f false false lc v lt [] false []) = true.
Proof.
  intros Hlt. unfold quiescent. cbn.
  rewrite bool_decide_eq_true_2 by reflexivity.
  destruct lt; [rewrite Hlt by reflexivity|]; reflexivity.
Qed.

Lemma fresh_quiescent (v : T) cap now :
  quiescent (useRefHistory v cap now) = true.
Proof.
  cbn. destruct (exceeds 0 cap) eqn:E; cbn;
    apply quiescent_intro; cbn; intros; congruence.
Qed.

Lemma settle_quiescent (c : Call) now (s : St) :
  quiescent s = true -> quiescent (settle c now s) = true.
Proof.
  intros Hq. destruct c as [v|c|t|t].
  - destruct (decide (v = source s)) as [->|Hv].
    + rewrite settle_SetSource_same; assumption.
    + rewrite settle_SetSource by assumption.
      apply quiescent_inv in Hq. destruct Hq as (_ & _ & _ & _ & _ & _ & Hlt).
      destruct (cap_is (capacity s) 0) eqn:E0; apply quiescent_intro; [assumption|].
      intros Ht. specialize (Hlt Ht). unfold recorded. cbn [length].
      destruct (cap_is (capacity s) (Z.of_nat (length (history s)))) eqn:E1;
        destruct (capacity s); cap_arith.
  - destruct (decide (c = capacity s)) as [->|Hc].
    + rewrite settle_SetCapacity_same; assumption.
    + rewrite settle_SetCapacity by assumption.
      revert Hq. open_state s.
      crunch; apply quiescent_intro; intros; congruence.
  - destruct (history s) as [|r rest] eqn:Eh.
    + rewrite settle_Undo_nil; assumption.
    + rewrite (settle_Undo_cons s t now r rest) by assumption.
      apply quiescent_inv in Hq. destruct Hq as (_ & _ & _ & _ & _ & _ & Hlt).
      apply quiescent_intro. intros Ht. specialize (Hlt Ht).
      rewrite Eh in Hlt. destruct (capacity s); cap_arith.
  - destruct (future s) as [|r rest] eqn:Ef.
    + rewrite settle_Redo_nil; assumption.
    + rewrite (settle_Redo_cons s t now r rest) by assumption.
      cbv zeta.
      destruct (lengthTracked s); cbn [andb];
        [destruct (exceeds _ _) eqn:E|]; apply quiescent_intro; intros; congruence.
Qed.

(** *** The flush runs every job *)


Lemma weight_app q1 q2 : weight (q1 ++ q2) = (weight q1 + weight q2)%nat.
Proof. induction q1 as [|j q1 IH]; cbn [weight app]; [reflexivity|rewrite IH; lia]. Qed.

Lemma weight_length q : (weight q <= 2 * length q)%nat.
Proof. induction q as [|[] q IH]; cbn in *; lia. Qed.

Lemma runJob_weight now j q (s : St) :
  (weight (queue (runJob now j (set_queue q s))) < weight (j :: q))%nat.
Proof.
  destruct s as [src cap h f du dr lc ov lt q0 cfp mt].
  destruct (existsb (Job_eqb CapacityEffect) q) eqn:Eq;
  destruct j, du, dr; cbn -[weight];
    repeat (rewrite ?existsb_app, ?Eq; cbn -[weight]; try split_cond);
    rewrite ?weight_app; cbn; lia.
Qed.

Lemma flushLoop_drains fuel now (s : St) :
  (weight (queue s) <= fuel)%nat -> queue (flushLoop fuel now s) = [].
Proof.
  revert s. induction fuel as [|fuel IH]; intros s Hw.
  - change (queue s = []).
    destruct (queue s) as [|[] q]; [reflexivity| |]; cbn in Hw; lia.
  - change (queue match queue s with
                  | [] => s
                  | j :: q => flushLoop fuel now (runJob now j (set_queue q s))
                  end = []).
    destruct (queue s) as [|j q] eqn:Eq; [assumption|].
    apply IH. pose proof (runJob_weight now j q s). lia.
Qed.

Theorem flushJobs_drains now (s : St) : queue (flushJobs now s) = [].
Proof.
  unfold flushJobs.
  pose proof (flushLoop_drains (2 * length (queue s)) now s (weight_length _)) as Hd.
  destruct (flushLoop _ _ _). exact Hd.
Qed.

(** *** Every await ends in a quiescent state *)

Ltac fin :=
  unfold flushScheduled, flushWaiting, watcherCurrent, effectCurrent,
    undoReset, redoReset in *;
  cbn in *; rewrite ?existsb_app in *; cbn in *;
  rewrite ?orb_true_r, ?orb_false_r in *;
  intuition (try congruence; try discriminate);
  try match goal with
  | |- exceeds ?n ?c = false =>
      destruct (exceeds n c); intuition (try congruence; try discriminate)
  end.

Lemma quiescent_Coherent (s : St) : quiescent s = true -> Coherent s.
Proof. open_state s. unfold Coherent. fin. Qed.

Lemma call_flushScheduled (c : Call) (s : St) :
  flushScheduled s -> flushScheduled (call c s).
Proof.
  destruct s as [src cap h f du dr lc ov lt q cfp mt].
  destruct c; crunch; fin; destruct q; cbn in *; auto; discriminate.
Qed.

Lemma call_flushWaiting (c : Call) (s : St) :
  flushWaiting s -> flushWaiting (call c s).
Proof.
  destruct s as [src cap h f du dr lc ov lt q cfp mt].
  destruct c; crunch; fin.
Qed.

Lemma call_watcherCurrent (c : Call) (s : St) :
  watcherCurrent s -> watcherCurrent (call c s).
Proof.
  destruct s as [src cap h f du dr lc ov lt q cfp mt].
  destruct c; crunch; fin.
Qed.

Lemma call_effectCurrent (c : Call) (s : St) :
  effectCurrent s -> effectCurrent (call c s).
Proof.
  destruct s as [src cap h f du dr lc ov lt q cfp mt].
  destruct c; crunch; fin.
Qed.

Lemma call_undoReset (c : Call) (s : St) : undoReset s -> undoReset (call c s).
Proof.
  destruct s as [src cap h f du dr lc ov lt q cfp mt].
  destruct c; crunch; fin.
Qed.

Lemma call_redoReset (c : Call) (s : St) : redoReset s -> redoReset (call c s).
Proof.
  destruct s as [src cap h f du dr lc ov lt q cfp mt].
  destruct c; crunch; fin.
Qed.

Lemma call_Coherent (c : Call) (s : St) : Coherent s -> Coherent (call c s).
Proof.
  intros (H1 & H2 & H3 & H4 & H5 & H6).
  repeat split; auto using call_flushScheduled, call_flushWaiting,
    call_watcherCurrent, call_effectCurrent, call_undoReset, call_redoReset.
Qed.

Lemma runJob_inv now j q (s : St) :
  queue s = j :: q -> currentFlushPromise s = true ->
  let s' := runJob now j (set_queue q s) in
  currentFlushPromise s' = true /\ microtasks s' = microtasks s /\
  doingUndo s' = doingUndo s /\ doingRedo s' = doingRedo s /\
  (watcherCurrent s -> watcherCurrent s') /\
  (effectCurrent s -> effectCurrent s').
Proof.
  destruct s as [src cap h f du dr lc ov lt q0 cfp mt]. cbn.
  intros -> ->. destruct j, du, dr; crunch; fin.
Qed.

Lemma flushLoop_inv fuel now : forall s : St,
  currentFlushPromise s = true ->
  let s' := flushLoop fuel now s in
  currentFlushPromise s' = true /\ microtasks s' = microtasks s /\
  doingUndo s' = doingUndo s /\ doingRedo s' = doingRedo s /\
  (watcherCurrent s -> watcherCurrent s') /\
  (effectCurrent s -> effectCurrent s').
Proof.
  induction fuel as [|fuel IH]; intros s Hc.
  - change (flushLoop 0 now s) with s. cbv zeta. auto 10.
  - change (flushLoop (S fuel) now s)
      with (match queue s with
            | [] => s
            | j :: q => flushLoop fuel now (runJob now j (set_queue q s))
            end).
    destruct (queue s) as [|j q] eqn:Eq; [cbv zeta; auto 10|].
    destruct (runJob_inv now j q s Eq Hc) as (Hc' & Hm & Hu & Hr & Hw & He).
    destruct (IH _ Hc') as (Hc'' & Hm' & Hu' & Hr' & Hw' & He').
    cbv zeta. repeat split; try congruence; auto.
Qed.

Lemma flushJobs_settles now (s : St) :
  flushScheduled s -> watcherCurrent s -> effectCurrent s ->
  let s' := flushJobs now s in
  queue s' = [] /\ currentFlushPromise s' = false /\
  microtasks s' = microtasks s /\
  doingUndo s' = doingUndo s /\ doingRedo s' = doingRedo s /\
  oldValue s' = source s' /\
  (lengthTracked s' = true ->
   exceeds (length (history s')) (capacity s') = false).
Proof.
  intros Hs Hw He. pose proof (flushJobs_drains now s) as Hd. revert Hd.
  unfold flushJobs. destruct Hs as [Hq|Hc].
  - rewrite Hq. change (flushLoop (2 * length []) now s) with s.
    destruct s as [src cap h f du dr lc ov lt q cfp mt]. cbn in *. subst.
    intros _. fin.
  - destruct (flushLoop_inv (2 * length (queue s)) now s Hc)
      as (_ & Hm & Hu & Hr & Hw' & He').
    specialize (Hw' Hw). specialize (He' He).
    destruct (flushLoop _ now s) as [src cap h f du dr lc ov lt q cfp mt].
    cbn in *. intros ->. fin.
Qed.

Lemma drain_quiescent now (ms : list Microtask) : forall s : St,
  microtasks s = [] ->
  Coherent (set_microtasks ms s) ->
  quiescent (drain now ms s) = true.
Proof.
  induction ms as [|m ms IH]; intros s Hm Hc.
  - change (drain now [] s) with s.
    destruct s as [src cap h f du dr lc ov lt q cfp mt].
    unfold Coherent in Hc. cbn in *. subst.
    assert (cfp = false) by (destruct cfp; fin). subst.
    assert (q = []) by fin. subst.
    assert (du = false) by (destruct du; fin).
    assert (dr = false) by (destruct dr; fin). subst.
    assert (ov = src) by fin. subst.
    apply quiescent_intro. intros ->.
    fin.
  - change (drain now (m :: ms) s) with (drain now ms (runMicrotask now m s)).
    destruct Hc as (H1 & H2 & H3 & H4 & H5 & H6).
    destruct m.
    + assert (Hs : flushScheduled s /\ watcherCurrent s /\ effectCurrent s).
      { destruct s; fin. }
      destruct Hs as (Hs1 & Hs2 & Hs3).
      destruct (flushJobs_settles now s Hs1 Hs2 Hs3)
        as (Hq & Hcf & Hmt & Hu & Hr & Ho & Hx).
      change (runMicrotask now FlushJobs s) with (flushJobs now s).
      apply IH; [congruence|].
      destruct (flushJobs now s) as [src cap h f du dr lc ov lt q cfp mt].
      destruct s as [src0 cap0 h0 f0 du0 dr0 lc0 ov0 lt0 q0 cfp0 mt0].
      unfold Coherent. cbn in *. subst. fin.
    + apply IH; destruct s as [src cap h f du dr lc ov lt q cfp mt];
        [exact Hm|]. unfold Coherent. cbn in *. fin.
    + apply IH; destruct s as [src cap h f du dr lc ov lt q cfp mt];
        [exact Hm|]. unfold Coherent. cbn in *. fin.
Qed.

Lemma tick_quiescent now (s : St) : Coherent s -> quiescent (tick now s) = true.
Proof.
  intros Hc. unfold tick. apply drain_quiescent.
  - destruct s; reflexivity.
  - destruct s; exact Hc.
Qed.

Lemma Reachable_Coherent (s : St) : Reachable s -> Coherent s.
Proof.
  induction 1 as [v cap now|c s _ IH|now s _ IH].
  - apply quiescent_Coherent, fresh_quiescent.
  - apply call_Coherent, IH.
  - apply quiescent_Coherent, tick_quiescent, IH.
Qed.

(** Whatever the caller did before, the state after an await is quiescent. *)
Theorem Settled_quiescent (s : St) : Settled s -> quiescent s = true.
Proof.
  intros [v cap now|now s0 Hr].
  - apply fresh_quiescent.
  - apply tick_quiescent, Reachable_Coherent, Hr.
Qed.

Lemma Settled_Reachable (s : St) : Settled s -> Reachable s.
Proof. intros [v cap now|now s0 Hr]; constructor. exact Hr. Qed.

Lemma Settled_settle (c : Call) now (s : St) :
  Settled s -> Settled (settle c now s).
Proof.
  intros Hs. unfold settle. apply Settled_tick, Reachable_call.
  apply Settled_Reachable, Hs.
Qed.

(** *** What one external mutation does *)

Lemma slice0_legal {A : Type} (c : Z) (l : list A) :
  0 <= c -> slice0 (Finite c) l = take (Z.to_nat c) l.
Proof.
  intros Hc. unfold slice0.
  destruct (c <? 0) eqn:E; [apply Z.ltb_lt in E; lia | reflexivity].
Qed.

Lemma after_SetSource (s : St) v now :
  quiescent s = true -> v <> source s ->
  let s' := settle (SetSource v) now s in
  source s' = v /\ capacity s' = capacity s /\ future s' = [] /\
  history s' =
    (if cap_is (capacity s) 0 then history s else recorded (source s) s) /\
  lastChanged s' = (if cap_is (capacity s) 0 then lastChanged s else now).
Proof.
  intros Hq Hv s'. subst s'. rewrite settle_SetSource by assumption.
  destruct (cap_is (capacity s) 0); cbn; auto.
Qed.

Lemma mutate_length (ms : list (T * Z)) : forall s : St,
  quiescent s = true -> legal (capacity s) ->
  exceeds (length (history s)) (capacity s) = false ->
  mutating (source s) ms ->
  length (history (mutate ms s)) =
    cap_min (length (history s) + length ms) (capacity s).
Proof.
  induction ms as [|[v now] ms IH]; intros s Hq Hl Hx Hm.
  - cbn [mutate length]. rewrite Nat.add_0_r.
    destruct (capacity s); cbn [cap_min]; [cap_arith|reflexivity].
  - cbn [mutate]. destruct Hm as [Hv Hm].
    destruct (after_SetSource s v now Hq Hv) as (Hs & Hc & _ & Hh & _).
    rewrite IH.
    + rewrite Hc, Hh. unfold recorded.
      destruct (cap_is (capacity s) 0) eqn:E0;
        [|destruct (cap_is (capacity s) (Z.of_nat (length (history s)))) eqn:E1];
        destruct (capacity s); cbn [cap_min length]; cap_arith.
    + apply settle_quiescent, Hq.
    + rewrite Hc. exact Hl.
    + rewrite Hc, Hh. unfold recorded.
      destruct (cap_is (capacity s) 0) eqn:E0;
        [|destruct (cap_is (capacity s) (Z.of_nat (length (history s)))) eqn:E1];
        destruct (capacity s); cbn [length]; cap_arith.
    + rewrite Hs. exact Hm.
Qed.

(** C1. After every run of external mutations from a fresh tracker with a
    fixed, legal capacity, each mutation settled before the next, the length
    of [history] is the minimum of the number of mutations and the
    capacity. *)
Theorem C1_history_length_is_min (v0 : T) (cap : Capacity) (now0 : Z)
    (ms : list (T * Z)) :
  legal cap -> mutating v0 ms ->
  length (history (mutate ms (useRefHistory v0 cap now0))) =
    cap_min (length ms) cap.
Proof.
  intros Hl Hm.
  assert (Hx : exceeds 0 cap = false) by (destruct cap; cap_arith).
  assert (Hf : useRefHistory v0 cap now0 =
               mkTracker v0 cap [] [] false false now0 v0 true [] false []).
  { cbn. rewrite Hx. reflexivity. }
  rewrite (mutate_length ms (useRefHistory v0 cap now0)).
  - rewrite Hf. reflexivity.
  - apply fresh_quiescent.
  - rewrite Hf. exact Hl.
  - rewrite Hf. exact Hx.
  - rewrite Hf. exact Hm.
Qed.

(** The callback itself clears [future] whenever it is not suppressed. *)
Lemma handler_clears_future (s : St) newVal old now :
  doingUndo s = false -> doingRedo s = false ->
  future (handler newVal old now s) = [].
Proof.
  destruct s as [src cap h f du dr lc ov lt q cfp mt]. cbn.
  intros -> ->. crunch; reflexivity.
Qed.

(** C3. An external mutation leaves [future] empty once its handler has
    run, also when the capacity is 0, where [history] is left as it is. *)
Theorem C3_mutation_clears_future (s : St) (v : T) (now : Z) :
  quiescent s = true -> v <> source s ->
  future (settle (SetSource v) now s) = [] /\
  (capacity s = Finite 0 ->
   history (settle (SetSource v) now s) = history s).
Proof.
  intros Hq Hv.
  destruct (after_SetSource s v now Hq Hv) as (_ & _ & Hf & Hh & _).
  split; [exact Hf|]. intros Hc. rewrite Hh, Hc. reflexivity.
Qed.

(** C4. From a settled state with a record in [history], [undo()] followed
    by [redo()] gives back the cell's value, the values of [history] in
    their order, and [future]; with an await between the two calls, or
    with both calls made before the await. *)
Theorem C4_undo_redo_roundtrip (s : St) (tu nu tr nr : Z) :
  quiescent s = true -> history s <> [] ->
  let s1 := settle (Redo tr) nr (settle (Undo tu) nu s) in
  let s2 := tick nr (redo tr (undo tu s)) in
  (source s1 = source s /\ historyValues s1 = historyValues s /\
   future s1 = future s) /\
  (source s2 = source s /\ historyValues s2 = historyValues s /\
   future s2 = future s).
Proof.
  intros Hq Hh. destruct (history s) as [|r rest] eqn:Eh; [congruence|].
  clear Hh. cbv zeta. split.
  - pose proof (settle_quiescent (Undo tu) nu s Hq) as Hq1.
    rewrite (settle_Undo_cons s tu nu r rest Hq Eh) in *.
    erewrite settle_Redo_cons by (exact Hq1 || reflexivity).
    apply quiescent_inv in Hq. destruct Hq as (_ & _ & _ & _ & _ & _ & Hlt).
    rewrite Eh in Hlt. cbn in *.
    destruct (lengthTracked s); cbn [andb].
    + rewrite Hlt by reflexivity. unfold historyValues. cbn. rewrite Eh. auto.
    + unfold historyValues. cbn. rewrite Eh. auto.
  - revert Hq Eh. open_state s. intros ->. unfold historyValues.
    crunch; try solve [repeat split; congruence]; exfalso; cap_arith.
Qed.

(** C5. A change of the capacity to a legal value below the length of
    [history] leaves, once settled, the first [capacity] records, with the
    cell and [future] untouched; a later change to any capacity at least as
    large leaves [history] as truncated. *)
Theorem C5_shrink_truncates_grow_keeps (s : St) (c : Z) (now : Z) :
  quiescent s = true -> Finite c <> capacity s ->
  0 <= c < Z.of_nat (length (history s)) ->
  let s1 := settle (SetCapacity (Finite c)) now s in
  history s1 = take (Z.to_nat c) (history s) /\
  source s1 = source s /\ future s1 = future s /\
  forall c' now', at_least c c' ->
    history (settle (SetCapacity c') now' s1) = history s1.
Proof.
  intros Hq Hc Hlen s1.
  pose proof (settle_quiescent (SetCapacity (Finite c)) now s Hq) as Hq1.
  fold s1 in Hq1.
  assert (Hs1 : s1 = mkTracker (source s) (Finite c)
                       (take (Z.to_nat c) (history s)) (future s)
                       (doingUndo s) (doingRedo s) (lastChanged s)
                       (oldValue s) false (queue s) (currentFlushPromise s)
                       (microtasks s)).
  { subst s1. rewrite settle_SetCapacity by assumption.
    destruct s as [src cap h f du dr lc ov lt q cfp mt]. cbn in *.
    assert (Hx : exceeds (length h) (Finite c) = true) by cap_arith.
    rewrite Hx. cbn. rewrite slice0_legal by lia. reflexivity. }
  rewrite Hs1 at 1 2 3. cbn. repeat split.
  intros c' now' Hge.
  destruct (decide (c' = capacity s1)) as [->|Hne].
  - rewrite settle_SetCapacity_same by assumption. reflexivity.
  - rewrite settle_SetCapacity by assumption.
    rewrite Hs1. cbn.
    assert (Hx : exceeds (length (take (Z.to_nat c) (history s))) c' = false).
    { rewrite length_take. destruct c'; unfold at_least in Hge; cap_arith. }
    rewrite Hx. reflexivity.
Qed.

(** Two assignments in a row: the record of the first value carries the
    clock reading at which that value was assigned. *)
Lemma consecutive_mutations_timestamp (s : St) (v1 v2 : T) (n1 n2 : Z) :
  quiescent s = true -> v1 <> source s -> v2 <> v1 ->
  cap_is (capacity s) 0 = false ->
  exists rest,
    history (settle (SetSource v2) n2 (settle (SetSource v1) n1 s)) =
      {| value := v1; timestamp := n1 |} :: rest.
Proof.
  intros Hq H1 H2 H0.
  pose proof (settle_quiescent (SetSource v1) n1 s Hq) as Hq1.
  destruct (after_SetSource s v1 n1 Hq H1) as (Hs & Hc & _ & _ & Hl).
  rewrite H0 in Hl.
  destruct (after_SetSource (settle (SetSource v1) n1 s) v2 n2 Hq1)
    as (_ & _ & _ & Hh & _); [congruence|].
  rewrite Hc, H0 in Hh. unfold recorded in Hh. rewrite Hs, Hl in Hh.
  eexists. exact Hh.
Qed.

(** The bound on [history] survives every settled call other than [redo]. *)
Lemma bound_preserved (c : Call) now (s : St) :
  quiescent s = true -> (forall t, c <> Redo t) ->
  match c with SetCapacity c' => legal c' | _ => True end ->
  exceeds (length (history s)) (capacity s) = false ->
  exceeds (length (history (settle c now s))) (capacity (settle c now s)) = false.
Proof.
  intros Hq Hc Hl Hx. destruct c as [v|c|t|t].
  - destruct (decide (v = source s)) as [->|Hv].
    + rewrite settle_SetSource_same; assumption.
    + destruct (after_SetSource s v now Hq Hv) as (_ & -> & _ & -> & _).
      unfold recorded.
      destruct (cap_is (capacity s) 0) eqn:E0;
        [|destruct (cap_is (capacity s) (Z.of_nat (length (history s)))) eqn:E1];
        destruct (capacity s); cbn [length]; cap_arith.
  - destruct (decide (c = capacity s)) as [->|Hne].
    + rewrite settle_SetCapacity_same; assumption.
    + rewrite settle_SetCapacity by assumption.
      destruct s as [src cap h f du dr lc ov lt q cfp mt]. cbn in *.
      destruct (exceeds (length h) c) eqn:E; cbn; [|assumption].
      destruct c as [c|]; [|reflexivity].
      rewrite slice0_legal by assumption. rewrite length_take. cap_arith.
  - destruct (history s) as [|r rest] eqn:Eh.
    + rewrite settle_Undo_nil by assumption. rewrite Eh. assumption.
    + rewrite (settle_Undo_cons s t now r rest) by assumption. cbn.
      destruct (capacity s); cap_arith.
  - exfalso. exact (Hc t eq_refl).
Qed.

(** While the capacity is not changed, the records of [history] and
    [future] together stay within it, and so does [history]. *)
Lemma fixed_capacity_step (c : Call) now (s : St) :
  quiescent s = true -> legal (capacity s) -> keepsCapacity c = true ->
  exceeds (length (history s) + length (future s)) (capacity s) = false ->
  capacity (settle c now s) = capacity s /\
  exceeds (length (history (settle c now s)) + length (future (settle c now s)))
    (capacity s) = false.
Proof.
  intros Hq Hl Hk Hx. destruct c as [v|c|t|t]; [| discriminate Hk | |].
  - destruct (decide (v = source s)) as [->|Hv].
    + rewrite settle_SetSource_same by assumption. auto.
    + destruct (after_SetSource s v now Hq Hv) as (_ & -> & -> & -> & _).
      split; [reflexivity|]. unfold recorded.
      destruct (cap_is (capacity s) 0) eqn:E0;
        [|destruct (cap_is (capacity s) (Z.of_nat (length (history s)))) eqn:E1];
        destruct (capacity s); cbn [length]; cap_arith.
  - destruct (history s) as [|r rest] eqn:Eh.
    + rewrite settle_Undo_nil by assumption. rewrite Eh. auto.
    + rewrite (settle_Undo_cons s t now r rest) by assumption. cbn.
      split; [reflexivity|]. destruct (capacity s); cap_arith.
  - destruct (future s) as [|r rest] eqn:Ef.
    + rewrite settle_Redo_nil by assumption. rewrite Ef. auto.
    + rewrite (settle_Redo_cons s t now r rest) by assumption. cbv zeta.
      assert (Hx' : exceeds (length ({| value := source s; timestamp := t |}
                                       :: history s)) (capacity s) = false)
        by (destruct (capacity s); cap_arith).
      rewrite Hx', andb_false_r. cbn.
      split; [reflexivity|]. destruct (capacity s); cap_arith.
Qed.

Theorem fixed_capacity_bounded (cs : list (Call * Z)) (v : T) (cap : Capacity)
    (now0 : Z) :
  legal cap -> forallb keepsCapacity (map fst cs) = true ->
  exceeds (length (history (run cs (useRefHistory v cap now0)))) cap = false.
Proof.
  intros Hl Hk.
  assert (Hx : exceeds 0 cap = false) by (destruct cap; cap_arith).
  assert (Hf : useRefHistory v cap now0 =
               mkTracker v cap [] [] false false now0 v true [] false []).
  { cbn. rewrite Hx. reflexivity. }
  assert (Hgen : forall s : St,
    quiescent s = true -> capacity s = cap ->
    exceeds (length (history s) + length (future s)) cap = false ->
    exceeds (length (history (run cs s))) cap = false).
  { clear Hf. induction cs as [|[c now] cs IH]; intros s Hq Hc Hb.
    - cbn [run]. destruct cap; cap_arith.
    - cbn [run]. cbn in Hk. apply andb_prop in Hk. destruct Hk as [Hk1 Hk2].
      subst cap.
      destruct (fixed_capacity_step c now s Hq Hl Hk1 Hb) as [Hc' Hb'].
      apply IH; auto using settle_quiescent. }
  apply Hgen.
  - apply fresh_quiescent.
  - rewrite Hf. reflexivity.
  - rewrite Hf. exact Hx.
Qed.

(** What the callback records, whenever it records. *)
Lemma handler_records (s : St) newVal old now :
  doingUndo s = false -> doingRedo s = false ->
  cap_is (capacity s) 0 = false ->
  history (handler newVal old now s) = recorded old s /\
  lastChanged (handler newVal old now s) = now.
Proof.
  destruct s as [src cap h f du dr lc ov lt q cfp mt]. cbn.
  intros -> -> ->. crunch; auto.
Qed.

(** C8. On a settled state, [undo()] with an empty [history] and [redo()]
    with an empty [future] raise their flag and change nothing else; once
    settled the flag is down again and the state is the one before the
    call. *)
Theorem C8_empty_undo_redo_noop (s : St) (t now : Z) :
  quiescent s = true ->
  (history s = [] ->
   doingUndo (undo t s) = true /\
   source (undo t s) = source s /\ history (undo t s) = history s /\
   future (undo t s) = future s /\
   doingUndo (settle (Undo t) now s) = false /\
   settle (Undo t) now s = s) /\
  (future s = [] ->
   doingRedo (redo t s) = true /\
   source (redo t s) = source s /\ history (redo t s) = history s /\
   future (redo t s) = future s /\
   doingRedo (settle (Redo t) now s) = false /\
   settle (Redo t) now s = s).
Proof.
  intros Hq. split; intros He.
  - rewrite settle_Undo_nil by assumption.
    apply quiescent_inv in Hq. destruct Hq as (_ & _ & _ & Hu & _).
    destruct s as [src cap h f du dr lc ov lt q cfp mt]. cbn in *. subst.
    cbn. auto 10.
  - rewrite settle_Redo_nil by assumption.
    apply quiescent_inv in Hq. destruct Hq as (_ & _ & _ & _ & Hr & _).
    destruct s as [src cap h f du dr lc ov lt q cfp mt]. cbn in *. subst.
    cbn. auto 10.
Qed.

(** At the settling point of an external mutation that adds a record, the
    record at index 0 holds the value the cell had before the mutation, and
    that value is not the cell's current one. *)
Lemma mutation_records_previous_value (s : St) (v : T) (now : Z) :
  quiescent s = true -> v <> source s -> cap_is (capacity s) 0 = false ->
  let s' := settle (SetSource v) now s in
  exists r rest, history s' = r :: rest /\
    value r = source s /\ value r <> source s'.
Proof.
  intros Hq Hv H0 s'.
  destruct (after_SetSource s v now Hq Hv) as (Hs & _ & _ & Hh & _).
  fold s' in Hs, Hh. rewrite H0 in Hh. unfold recorded in Hh.
  eexists _, _. split; [exact Hh|]. cbn. rewrite Hs. auto.
Qed.

(** C10, amended. When it is not suppressed and the capacity is not 0, the
    callback puts the record of the old value in front of [history], after
    dropping the last record exactly when the length equals the capacity;
    so when the length already exceeds the capacity nothing is dropped and
    [history] grows by one, further past the capacity. *)
Theorem C10_eviction_only_at_capacity (s : St) (newVal old : T) (now : Z) :
  doingUndo s = false -> doingRedo s = false ->
  cap_is (capacity s) 0 = false ->
  let s' := handler newVal old now s in
  history s' =
    {| value := old; timestamp := lastChanged s |}
    :: (if cap_is (capacity s) (Z.of_nat (length (history s)))
        then removelast (history s) else history s) /\
  (exceeds (length (history s)) (capacity s) = true ->
   history s' = {| value := old; timestamp := lastChanged s |} :: history s /\
   length (history s') = S (length (history s)) /\
   exceeds (length (history s')) (capacity s') = true).
Proof.
  intros Hu Hr H0 s'.
  destruct (handler_records s newVal old now Hu Hr H0) as [Hh _].
  fold s' in Hh. unfold recorded in Hh. split; [exact Hh|].
  intros Hx.
  assert (E1 : cap_is (capacity s) (Z.of_nat (length (history s))) = false)
    by (destruct (capacity s); cap_arith).
  rewrite E1 in Hh. rewrite Hh. cbn [length]. repeat split.
  assert (Hc : capacity s' = capacity s).
  { subst s'. clear -Hu Hr H0.
    destruct s as [src cap h f du dr lc ov lt q cfp mt]. cbn in *. subst.
    rewrite H0. crunch; reflexivity. }
  rewrite Hc. destruct (capacity s); cap_arith.
Qed.

(** In a settled state whose [history] exceeds a non-zero capacity, every
    further external mutation adds a record and drops none. *)
Lemma overflow_grows (s : St) (v : T) (now : Z) :
  quiescent s = true -> v <> source s -> cap_is (capacity s) 0 = false ->
  exceeds (length (history s)) (capacity s) = true ->
  history (settle (SetSource v) now s) =
    {| value := source s; timestamp := lastChanged s |} :: history s.
Proof.
  intros Hq Hv H0 Hx.
  destruct (after_SetSource s v now Hq Hv) as (_ & _ & _ & Hh & _).
  rewrite Hh, H0. unfold recorded.
  assert (E1 : cap_is (capacity s) (Z.of_nat (length (history s))) = false)
    by (destruct (capacity s); cap_arith).
  rewrite E1. reflexivity.
Qed.

Lemma Settled_mutate (ms : list (T * Z)) : forall s : St,
  Settled s -> Settled (mutate ms s).
Proof.
  induction ms as [|[v now] ms IH]; intros s Hs; [exact Hs|].
  cbn [mutate]. apply IH, Settled_settle, Hs.
Qed.

(** ** Further properties of the composable *)

Lemma kept_legal {A : Type} (cap : Capacity) (l : list A) :
  legal cap -> kept cap l = keep cap l.
Proof.
  destruct cap as [c|]; cbn; [|reflexivity].
  intros Hc. destruct (c <? 0) eqn:E; [apply Z.ltb_lt in E; lia|reflexivity].
Qed.

Lemma tl_app_nonempty {A : Type} (l l' : list A) :
  l <> [] -> tl (l ++ l') = tl l ++ l'.
Proof. destruct l; [congruence|reflexivity]. Qed.

Lemma kept_cons {A : Type} (cap : Capacity) (x : A) (l : list A) :
  cap_is cap 0 = false ->
  x :: (if cap_is cap (Z.of_nat (length (kept cap l)))
        then removelast (kept cap l) else kept cap l) =
  kept cap (x :: l).
Proof.
  destruct cap as [c|]; [|reflexivity]. unfold kept, cap_is.
  intros H0. apply Z.eqb_neq in H0.
  destruct (c <? 0) eqn:En.
  - apply Z.ltb_lt in En.
    destruct (c =? Z.of_nat (length l)) eqn:E; [apply Z.eqb_eq in E; lia|].
    reflexivity.
  - apply Z.ltb_ge in En.
    destruct (Z.to_nat c) as [|n] eqn:En'; [lia|].
    rewrite firstn_cons. f_equal.
    destruct (c =? Z.of_nat (length (take (S n) l))) eqn:E.
    + apply Z.eqb_eq in E. rewrite length_take in E.
      apply removelast_firstn. lia.
    + apply Z.eqb_neq in E. rewrite length_take in E.
      rewrite !take_ge by lia. reflexivity.
Qed.

Lemma mutate_history (ms : list (T * Z)) : forall (s : St) (l : list (HistoryRecord T)),
  quiescent s = true -> history s = kept (capacity s) l ->
  mutating (source s) ms ->
  history (mutate ms s) =
    kept (capacity s)
      (tl (assignedRecords (source s) (lastChanged s) ms) ++ l).
Proof.
  induction ms as [|[v now] ms IH]; intros s l Hq Hh Hm.
  - exact Hh.
  - cbn [mutate]. destruct Hm as [Hv Hm].
    pose proof (settle_quiescent (SetSource v) now s Hq) as Hq'.
    destruct (after_SetSource s v now Hq Hv) as (Hs & Hc & _ & Hh' & Hl).
    destruct (cap_is (capacity s) 0) eqn:E0.
    + assert (Hk : forall l' : list (HistoryRecord T), kept (capacity s) l' = []).
      { intros l'. destruct (capacity s) as [c|]; [|discriminate].
        cbn in E0. apply Z.eqb_eq in E0. subst c. reflexivity. }
      rewrite (IH _ l Hq'); [rewrite Hc, !Hk; reflexivity | | congruence].
      rewrite Hh', Hc, Hh. rewrite !Hk. reflexivity.
    + rewrite (IH _ ({| value := source s; timestamp := lastChanged s |} :: l) Hq').
      * rewrite Hc, Hs, Hl. f_equal. unfold assignedRecords. cbn [map rev fst snd].
        set (r := rev (map (fun p : T * Z => {| value := fst p; timestamp := snd p |}) ms)
                    ++ [{| value := v; timestamp := now |}]).
        rewrite (tl_app_nonempty r)
          by (subst r; intros E; apply app_eq_nil in E; destruct E; discriminate).
        rewrite <- app_assoc. reflexivity.
      * rewrite Hh', Hc. unfold recorded. rewrite Hh. apply kept_cons, E0.
      * congruence.
Qed.

Lemma fresh_history (v0 : T) (cap : Capacity) (now0 : Z) :
  let s := useRefHistory v0 cap now0 in
  source s = v0 /\ capacity s = cap /\ lastChanged s = now0 /\
  history s = kept cap [].
Proof.
  cbn. destruct (exceeds 0 cap) eqn:E; cbn; repeat split.
  - destruct cap as [c|]; [|discriminate]. unfold slice0, kept.
    destruct (c <? 0); rewrite ?take_nil; reflexivity.
  - destruct cap as [c|]; [|reflexivity]. unfold kept.
    destruct (c <? 0); rewrite ?take_nil; reflexivity.
Qed.

(** X1. After a run of settled assignments with a legal capacity that is
    never changed, [history] is, newest first, the list of the earlier
    values of the cell, each with the clock reading at which it was
    assigned, cut to the capacity. *)
Theorem X1_history_holds_previous_values (v0 : T) (cap : Capacity) (now0 : Z)
    (ms : list (T * Z)) :
  legal cap -> mutating v0 ms ->
  history (mutate ms (useRefHistory v0 cap now0)) =
    keep cap (tl (assignedRecords v0 now0 ms)).
Proof.
  intros Hl Hm.
  destruct (fresh_history v0 cap now0) as (Hs & Hc & Ht & Hh).
  rewrite (mutate_history ms _ []).
  - rewrite Hs, Hc, Ht, app_nil_r. apply kept_legal, Hl.
  - apply fresh_quiescent.
  - rewrite Hc. exact Hh.
  - rewrite Hs. exact Hm.
Qed.

(** X2. With a negative capacity that is never changed nothing is ever
    dropped: [history] holds every earlier value. *)
Theorem X2_negative_capacity_keeps_everything (v0 : T) (c : Z) (now0 : Z)
    (ms : list (T * Z)) :
  c < 0 -> mutating v0 ms ->
  history (mutate ms (useRefHistory v0 (Finite c) now0)) =
    tl (assignedRecords v0 now0 ms).
Proof.
  intros Hc Hm.
  destruct (fresh_history v0 (Finite c) now0) as (Hs & Hcap & Ht & Hh).
  rewrite (mutate_history ms _ []).
  - rewrite Hs, Hcap, Ht, app_nil_r. unfold kept.
    destruct (c <? 0) eqn:E; [reflexivity|apply Z.ltb_ge in E; lia].
  - apply fresh_quiescent.
  - rewrite Hcap. exact Hh.
  - rewrite Hs. exact Hm.
Qed.

(** *** Assignments without an await between them *)

Lemma last_cons_default {A : Type} (l : list A) (x d : A) :
  List.last (x :: l) d = List.last l x.
Proof.
  revert x d. induction l as [|y l IH]; intros x d; [reflexivity|].
  change (List.last (x :: y :: l) d) with (List.last (y :: l) d).
  rewrite (IH y d), (IH y x). reflexivity.
Qed.

Lemma assign_shape (vs : list T) src cap h f lc lt : forall (cur : T) (st : St),
  let s0 := mkTracker src cap h f false false lc src lt [] false [] in
  let P v := mkTracker v cap h f false false lc src lt
               [WatchSource] true [FlushJobs] in
  (st = s0 /\ cur = src) \/ st = P cur ->
  (assign vs st = s0 /\ List.last vs cur = src) \/ assign vs st = P (List.last vs cur).
Proof.
  induction vs as [|v vs IH]; intros cur st s0 P Hst; [exact Hst|].
  change (assign (v :: vs) st) with (assign vs (setSource v st)).
  rewrite last_cons_default. apply IH. fold s0. fold P.
  destruct Hst as [[-> ->] | ->]; subst s0 P; crunch; subst;
    first [ left; split; reflexivity | right; reflexivity | congruence ].
Qed.

(** X3. Assignments made before one await reach the watcher as one change:
    the state after the await is the one a single assignment of the last
    value gives.  At most one record is added, and none when the last value
    is the one the cell held at the start. *)
Theorem X3_assignments_before_one_await_coalesce (s : St) (vs : list T)
    (now : Z) :
  quiescent s = true ->
  tick now (assign vs s) = settle (SetSource (List.last vs (source s))) now s.
Proof.
  open_state s.
  destruct (assign_shape vs src cap h f lc lt src _ (or_introl (conj eq_refl eq_refl)))
    as [[-> ->] | ->].
  - crunch; congruence.
  - generalize (List.last vs src). intros v. crunch; try congruence; reflexivity.
Qed.

(** X4. An assignment made between [undo()] and the await is not recorded
    and does not clear [future]: the watcher sees it while the flag is up.
    The cell keeps the assigned value.  This needs [undo()] to have
    scheduled a flush (the effect watches the array, or the record's value
    is not the cell's): otherwise the reset of the flag runs before the
    flush of the assignment.  An assignment made just before [undo()], in
    the same tick, is not recorded either, and it is the assigned value that
    [undo()] moves to [future]. *)
Theorem X4_assignment_in_the_tick_of_undo_is_not_recorded (s : St) (v : T)
    (t now : Z) r rest :
  quiescent s = true -> history s = r :: rest ->
  (lengthTracked s = true \/ value r <> source s ->
   tick now (setSource v (undo t s)) =
     mkTracker v (capacity s) rest
       ({| value := source s; timestamp := t |} :: future s) false false
       (lastChanged s) v (lengthTracked s) [] false []) /\
  tick now (undo t (setSource v s)) =
    mkTracker (value r) (capacity s) rest
      ({| value := v; timestamp := t |} :: future s) false false
      (lastChanged s) (value r) (lengthTracked s) [] false [].
Proof.
  open_state s. intros ->.
  split; [intros Hf|]; crunch; try congruence; try reflexivity;
    try solve [exfalso; cap_arith];
    destruct Hf; congruence.
Qed.

(** *** Undo and redo as a pair of stacks *)

Lemma undoOrRedo_step (c : Call) now (s : St) :
  quiescent s = true -> roomy s -> undoOrRedo c = true ->
  roomy (settle c now s) /\ timeline (settle c now s) = timeline s /\
  capacity (settle c now s) = capacity s.
Proof.
  intros Hq Hr Hc. unfold roomy, timeline, futureValues, historyValues in *.
  destruct c as [v|c|t|t]; try discriminate Hc.
  - destruct (history s) as [|r rest] eqn:Eh.
    + rewrite settle_Undo_nil by assumption. rewrite Eh. auto.
    + rewrite (settle_Undo_cons s t now r rest) by assumption. cbn.
      repeat split.
      * intros Ht. specialize (Hr Ht). destruct (capacity s); cap_arith.
      * rewrite <- app_assoc. reflexivity.
  - destruct (future s) as [|r rest] eqn:Ef.
    + rewrite settle_Redo_nil by assumption. rewrite Ef. auto.
    + rewrite (settle_Redo_cons s t now r rest) by assumption. cbv zeta.
      assert (Hx : lengthTracked s &&
                   exceeds (length ({| value := source s; timestamp := t |}
                                      :: history s)) (capacity s) = false).
      { destruct (lengthTracked s); [|reflexivity]. cbn [andb].
        specialize (Hr eq_refl). destruct (capacity s); cap_arith. }
      rewrite Hx. cbn. repeat split.
      * intros Ht. specialize (Hr Ht). destruct (capacity s); cap_arith.
      * rewrite <- app_assoc. reflexivity.
Qed.

(** X5. Whatever run of settled [undo()] and [redo()] calls is made, the
    values of [future] (oldest first), the cell and the values of
    [history] read in a row stay the same list: the calls move the cell
    along that list and neither drop nor reorder a value.  This holds when
    the records of [history] and [future] together fit the capacity, or
    the effect does not watch the array. *)
Theorem X5_undo_redo_keep_the_timeline (cs : list (Call * Z)) : forall s : St,
  quiescent s = true -> roomy s ->
  forallb undoOrRedo (map fst cs) = true ->
  timeline (run cs s) = timeline s.
Proof.
  induction cs as [|[c now] cs IH]; intros s Hq Hr Hc; [reflexivity|].
  cbn [run]. cbn in Hc. apply andb_prop in Hc. destruct Hc as [Hc1 Hc2].
  destruct (undoOrRedo_step c now s Hq Hr Hc1) as (Hr' & Ht & _).
  rewrite IH; auto using settle_quiescent.
Qed.

(** *** The newest record and the cell *)

Lemma distinctNeighbours_app (l1 l2 : list T) :
  distinctNeighbours (l1 ++ l2) -> distinctNeighbours l2.
Proof.
  induction l1 as [|x l1 IH]; [auto|].
  cbn [app distinctNeighbours]. destruct (l1 ++ l2) eqn:E.
  - intros _. destruct l1; [cbn in E; subst; exact I|discriminate].
  - intros [_ Hd]. apply IH, Hd.
Qed.

Lemma distinctNeighbours_removelast (l : list T) :
  distinctNeighbours l -> distinctNeighbours (removelast l).
Proof.
  induction l as [|x [|y [|z l]] IH]; try (intros; exact I).
  intros [Hxy Hd]. specialize (IH Hd).
  change (removelast (x :: y :: z :: l)) with (x :: y :: removelast (z :: l)).
  change (removelast (y :: z :: l)) with (y :: removelast (z :: l)) in IH.
  split; assumption.
Qed.

Lemma map_removelast {A B : Type} (f : A -> B) (l : list A) :
  map f (removelast l) = removelast (map f l).
Proof.
  induction l as [|x [|y l] IH]; [reflexivity|reflexivity|].
  change (removelast (x :: y :: l)) with (x :: removelast (y :: l)).
  cbn [map] in *. rewrite IH. reflexivity.
Qed.

Lemma neighbours_step (c : Call) now (s : St) :
  quiescent s = true -> roomy s -> distinctNeighbours (timeline s) ->
  (cap_is (capacity s) 0 = true -> history s = [] /\ future s = []) ->
  keepsCapacity c = true ->
  let s' := settle c now s in
  roomy s' /\ distinctNeighbours (timeline s') /\
  (cap_is (capacity s') 0 = true -> history s' = [] /\ future s' = []) /\
  capacity s' = capacity s.
Proof.
  intros Hq Hr Hd H0 Hk s'. subst s'.
  destruct c as [v|c|t|t]; [| discriminate Hk | |].
  - destruct (decide (v = source s)) as [->|Hv].
    + rewrite settle_SetSource_same by assumption. auto.
    + rewrite settle_SetSource by assumption.
      unfold roomy, timeline, futureValues, historyValues in *.
      destruct (cap_is (capacity s) 0) eqn:E0.
      * destruct (H0 eq_refl) as [Hh Hf]. rewrite Hh, Hf in *. cbn.
        rewrite E0. auto.
      * cbn. rewrite E0. unfold recorded. cbn [map value].
        repeat split; try discriminate.
        -- intros Ht. specialize (Hr Ht). cbn [length].
           destruct (cap_is (capacity s) (Z.of_nat (length (history s)))) eqn:E1;
             destruct (capacity s); cap_arith.
        -- congruence.
        -- apply distinctNeighbours_app in Hd.
           destruct (cap_is (capacity s) (Z.of_nat (length (history s)))); [|exact Hd].
           rewrite map_removelast.
           apply distinctNeighbours_removelast in Hd.
           destruct (map value (history s)) as [|y l]; exact Hd.
  - destruct (cap_is (capacity s) 0) eqn:E0.
    + destruct (H0 eq_refl) as [Hh Hf].
      rewrite settle_Undo_nil by assumption. rewrite E0. auto.
    + destruct (undoOrRedo_step (Undo t) now s Hq Hr eq_refl) as (Hr' & Ht & Hc).
      rewrite Ht, Hc, E0. repeat split; auto; discriminate.
  - destruct (cap_is (capacity s) 0) eqn:E0.
    + destruct (H0 eq_refl) as [Hh Hf].
      rewrite settle_Redo_nil by assumption. rewrite E0. auto.
    + destruct (undoOrRedo_step (Redo t) now s Hq Hr eq_refl) as (Hr' & Ht & Hc).
      rewrite Ht, Hc, E0. repeat split; auto; discriminate.
Qed.

Lemma neighbours_run (cs : list (Call * Z)) : forall s : St,
  quiescent s = true -> roomy s -> distinctNeighbours (timeline s) ->
  (cap_is (capacity s) 0 = true -> history s = [] /\ future s = []) ->
  forallb keepsCapacity (map fst cs) = true ->
  distinctNeighbours (timeline (run cs s)).
Proof.
  induction cs as [|[c now] cs IH]; intros s Hq Hr Hd H0 Hk; [exact Hd|].
  cbn [run]. cbn in Hk. apply andb_prop in Hk. destruct Hk as [Hk1 Hk2].
  destruct (neighbours_step c now s Hq Hr Hd H0 Hk1) as (Hr' & Hd' & H0' & _).
  apply IH; auto using settle_quiescent.
Qed.

Lemma fresh_empty (v0 : T) (cap : Capacity) (now0 : Z) :
  let s := useRefHistory v0 cap now0 in
  history s = [] /\ future s = [] /\ source s = v0 /\
  (lengthTracked s = true -> exceeds 0 (capacity s) = false).
Proof.
  cbn. destruct (exceeds 0 cap) eqn:E; cbn; repeat split; try discriminate;
    try (intros _; exact E).
  destruct cap as [c|]; [|discriminate]. unfold slice0.
  destruct (c <? 0); rewrite take_nil; reflexivity.
Qed.

(** C9, amended. After any run of settled assignments, [undo()] and
    [redo()] calls on a tracker whose capacity is never changed, the newest
    record of [history], if there is one, does not hold the cell's current
    value.  Indeed no two neighbours among the values of [future], the cell
    and the values of [history] are equal; an older record may hold the
    current value. *)
Theorem C9_newest_record_differs_from_cell (cs : list (Call * Z)) (v0 : T)
    (cap : Capacity) (now0 : Z) :
  forallb keepsCapacity (map fst cs) = true ->
  let s := run cs (useRefHistory v0 cap now0) in
  distinctNeighbours (timeline s) /\
  forall r rest, history s = r :: rest -> value r <> source s.
Proof.
  intros Hk s.
  assert (Hd : distinctNeighbours (timeline s)).
  { subst s. destruct (fresh_empty v0 cap now0) as (Hh & Hf & Hs & Hx).
    apply neighbours_run; auto using fresh_quiescent.
    - unfold roomy. rewrite Hh, Hf. exact Hx.
    - unfold timeline, futureValues, historyValues. rewrite Hh, Hf. exact I. }
  split; [exact Hd|].
  intros r rest Hh. unfold timeline, historyValues in Hd.
  apply distinctNeighbours_app in Hd. rewrite Hh in Hd.
  cbn in Hd. destruct Hd as [Hne _]. congruence.
Qed.

(** X6. With a legal capacity that is never changed, after any run of
    settled assignments, [undo()] and [redo()] calls the records of
    [history] and [future] together do not exceed the capacity. *)
Theorem X6_fixed_capacity_bounds_history_and_future (cs : list (Call * Z))
    (v : T) (cap : Capacity) (now0 : Z) :
  legal cap -> forallb keepsCapacity (map fst cs) = true ->
  let s := run cs (useRefHistory v cap now0) in
  capacity s = cap /\
  exceeds (length (history s) + length (future s)) cap = false.
Proof.
  intros Hl Hk.
  destruct (fresh_history v cap now0) as (_ & Hc & _ & Hh).
  rewrite kept_legal in Hh by assumption.
  assert (Hgen : forall s : St,
    quiescent s = true -> capacity s = cap ->
    exceeds (length (history s) + length (future s)) cap = false ->
    capacity (run cs s) = cap /\
    exceeds (length (history (run cs s)) + length (future (run cs s))) cap
      = false).
  { clear Hc Hh. induction cs as [|[c now] cs IH]; intros s Hq Hc Hb.
    - cbn [run]. auto.
    - cbn [run]. cbn in Hk. apply andb_prop in Hk. destruct Hk as [Hk1 Hk2].
      subst cap.
      destruct (fixed_capacity_step c now s Hq Hl Hk1 Hb) as [Hc' Hb'].
      apply IH; auto using settle_quiescent. }
  apply Hgen.
  - apply fresh_quiescent.
  - exact Hc.
  - rewrite Hh. cbn.
    assert (E : forall A (l : list A), l = [] -> length l = 0%nat)
      by (intros A l ->; reflexivity).
    rewrite (E _ (keep cap [])), (E _ (future _)).
    + destruct cap; cap_arith.
    + cbn. destruct (exceeds 0 cap); reflexivity.
    + destruct cap; cbn; rewrite ?take_nil; reflexivity.
Qed.

(** *** Capacity changes *)

Lemma cap_min_le (n : nat) (c : Capacity) : (cap_min n c <= n)%nat.
Proof. destruct c; cbn; lia. Qed.

Lemma lowest_le (cs : list Capacity) : forall n, (lowest cs n <= n)%nat.
Proof.
  induction cs as [|c cs IH]; intros n; cbn; [lia|].
  pose proof (IH (cap_min n c)). pose proof (cap_min_le n c). unfold lowest in *. lia.
Qed.

Lemma SetCapacity_step (c : Capacity) now (s : St) :
  quiescent s = true -> legal c ->
  exceeds (length (history s)) (capacity s) = false ->
  let s' := settle (SetCapacity c) now s in
  history s' = take (cap_min (length (history s)) c) (history s) /\
  exceeds (length (history s')) (capacity s') = false.
Proof.
  intros Hq Hl Hx s'. subst s'.
  destruct (decide (c = capacity s)) as [->|Hne].
  - rewrite settle_SetCapacity_same by assumption. split; [|assumption].
    rewrite take_ge; [reflexivity|].
    destruct (capacity s); cbn [cap_min]; [cap_arith|lia].
  - rewrite settle_SetCapacity by assumption.
    destruct s as [src cap h f du dr lc ov lt q cfp mt]. cbn in *.
    destruct (exceeds (length h) c) eqn:E; cbn.
    + destruct c as [c|]; [|discriminate]. rewrite slice0_legal by assumption.
      cbn [cap_min]. split.
      * f_equal. cap_arith.
      * rewrite length_take. cap_arith.
    + split; [|assumption]. rewrite take_ge; [reflexivity|].
      destruct c; cbn [cap_min]; [cap_arith|lia].
Qed.

(** X7. A run of settled capacity changes, all to legal values, leaves the
    first [m] records of [history], where [m] is the smallest of the
    capacities of the run and the length [history] had: truncations compose
    to the smallest capacity, and a capacity raised in between brings
    nothing back. *)
Theorem X7_capacity_changes_compose (cs : list (Capacity * Z)) : forall s : St,
  quiescent s = true ->
  exceeds (length (history s)) (capacity s) = false ->
  Forall legal (map fst cs) ->
  history (resize cs s) =
    take (lowest (map fst cs) (length (history s))) (history s).
Proof.
  unfold resize.
  induction cs as [|[c now] cs IH]; intros s Hq Hx Hl.
  - cbn. rewrite take_ge; [reflexivity|lia].
  - cbn [map run fst snd]. cbn in Hl. apply Forall_cons in Hl. destruct Hl as [Hl1 Hl2].
    destruct (SetCapacity_step c now s Hq Hl1 Hx) as [Hh Hx'].
    rewrite IH; auto using settle_quiescent.
    rewrite Hh. rewrite length_take.
    pose proof (cap_min_le (length (history s)) c) as Hle.
    rewrite (Nat.min_l _ _ Hle).
    rewrite take_take. f_equal.
    change (lowest (c :: map fst cs) (length (history s)))
      with (lowest (map fst cs) (cap_min (length (history s)) c)).
    pose proof (lowest_le (map fst cs) (cap_min (length (history s)) c)). lia.
Qed.

(** X8. Whatever calls were made and however they were grouped between
    awaits, right after an await both flags are down, no job and no
    microtask is waiting, the watcher has seen the cell's value, and an
    effect that watches the array has found it within the capacity. *)
Theorem X8_every_await_resets_the_flags (s : St) :
  Settled s ->
  doingUndo s = false /\ doingRedo s = false /\
  queue s = [] /\ microtasks s = [] /\ oldValue s = source s /\
  (lengthTracked s = true ->
   exceeds (length (history s)) (capacity s) = false).
Proof.
  intros Hs. apply Settled_quiescent in Hs. apply quiescent_inv in Hs.
  destruct Hs as (H1 & H2 & H3 & H4 & H5 & H6 & H7). auto 10.
Qed.

(** ** The clone utility on JavaScript values *)

Lemma Value_induction (P : Js.Value -> Prop) :
  (forall p, P (Js.Primitive p)) -> P Js.Function ->
  (forall l, Forall P l -> P (Js.Array l)) ->
  (forall ps, Forall (fun kv => P (snd kv)) ps -> P (Js.Object ps)) ->
  forall v, P v.
Proof.
  intros HP HF HA HO. fix IH 1. intros [p| |l|ps].
  - apply HP.
  - apply HF.
  - apply HA. revert l. fix IHl 1. intros [|x l]; constructor.
    + apply IH.
    + apply IHl.
  - apply HO. revert ps. fix IHps 1. intros [|[k x] ps]; constructor.
    + apply IH.
    + apply IHps.
Qed.

Lemma stringify_stable : forall v j,
  Js.JSON_stringify v = Some j -> Js.stable (Js.valueOf j) = true.
Proof.
  induction v as [p| |l IHl|ps IHps] using Value_induction; intros j Hj.
  - destruct p as [| |b|[]|s]; cbn in Hj; inversion Hj; reflexivity.
  - discriminate.
  - change (Js.JSON_stringify (Js.Array l))
      with (Some (Js.JArray (map (fun x => match Js.JSON_stringify x with
                                           | Some j => j
                                           | None => Js.JNull
                                           end) l))) in Hj.
    inversion Hj; subst; clear Hj.
    change (forallb Js.stable
              (map Js.valueOf
                 (map (fun x => match Js.JSON_stringify x with
                                | Some j => j
                                | None => Js.JNull
                                end) l)) = true).
    induction IHl as [|x l Hx _ IH]; [reflexivity|].
    cbn [map forallb]. rewrite IH, andb_true_r.
    destruct (Js.JSON_stringify x) as [jx|] eqn:Ex; [apply Hx; reflexivity|reflexivity].
  - change (Js.JSON_stringify (Js.Object ps))
      with (Some (Js.JObject (Js.membersOf Js.JSON_stringify ps))) in Hj.
    inversion Hj; subst; clear Hj.
    change (forallb (fun kv => Js.stable (snd kv))
              (map (fun m => (fst m, Js.valueOf (snd m)))
                 (Js.membersOf Js.JSON_stringify ps)) = true).
    induction IHps as [|[k x] ps Hx _ IH]; [reflexivity|].
    cbn [Js.membersOf snd] in *.
    destruct (Js.JSON_stringify x) as [jx|] eqn:Ex; [|exact IH].
    cbn [map forallb fst snd]. rewrite IH, andb_true_r. apply Hx. reflexivity.
Qed.

Lemma stable_roundtrip : forall v,
  Js.stable v = true ->
  exists j, Js.JSON_stringify v = Some j /\ Js.valueOf j = v.
Proof.
  induction v as [p| |l IHl|ps IHps] using Value_induction; intros Hs.
  - destruct p as [| |b|[]|s]; try discriminate; eexists; split; reflexivity.
  - discriminate.
  - change (forallb Js.stable l = true) in Hs.
    eexists. split; [reflexivity|].
    change (Js.Array
              (map Js.valueOf
                 (map (fun x => match Js.JSON_stringify x with
                                | Some j => j
                                | None => Js.JNull
                                end) l)) = Js.Array l).
    f_equal.
    induction IHl as [|x l Hx _ IH]; [reflexivity|].
    cbn [forallb] in Hs. apply andb_prop in Hs. destruct Hs as [Hs1 Hs2].
    cbn [map]. rewrite (IH Hs2). f_equal.
    destruct (Hx Hs1) as (jx & -> & Hv). exact Hv.
  - change (forallb (fun kv => Js.stable (snd kv)) ps = true) in Hs.
    eexists. split; [reflexivity|].
    change (Js.Object
              (map (fun m => (fst m, Js.valueOf (snd m)))
                 (Js.membersOf Js.JSON_stringify ps)) = Js.Object ps).
    f_equal.
    induction IHps as [|[k x] ps Hx _ IH]; [reflexivity|].
    cbn [forallb snd] in Hs, Hx. apply andb_prop in Hs. destruct Hs as [Hs1 Hs2].
    cbn [Js.membersOf]. destruct (Hx Hs1) as (jx & -> & Hv).
    cbn [map fst snd]. rewrite (IH Hs2), Hv. reflexivity.
Qed.

(** X9. [clone] returns its argument unchanged exactly when the argument
    is JSON-stable: no [undefined], function, [NaN], infinity or [-0]
    anywhere in it.  On those values the [clone] of the claims, the
    identity, is the [clone] of the source. *)
Theorem X9_clone_is_the_identity_exactly_on_stable_values (v : Js.Value) :
  Js.clone v = Some v <-> Js.stable v = true.
Proof.
  unfold Js.clone, Js.JSON_parse. split.
  - destruct (Js.JSON_stringify v) as [j|] eqn:Ej; [|discriminate].
    intros Hv. injection Hv as Hv'.
    pose proof (stringify_stable v j Ej) as Hs. rewrite Hv' in Hs. exact Hs.
  - intros Hs. destruct (stable_roundtrip v Hs) as (j & -> & ->). reflexivity.
Qed.

(** X10. Whatever [clone] returns is JSON-stable, so cloning it again
    changes nothing: the values kept in [history] and [future] and the
    values written back to the cell survive any number of further
    clones. *)
Theorem X10_clone_returns_stable_values (v w : Js.Value) :
  Js.clone v = Some w -> Js.stable w = true /\ Js.clone w = Some w.
Proof.
  unfold Js.clone at 1. unfold Js.JSON_parse.
  destruct (Js.JSON_stringify v) as [j|] eqn:Ej; [|discriminate].
  intros Hw. inversion Hw; subst; clear Hw.
  pose proof (stringify_stable v j Ej) as Hs. split; [exact Hs|].
  destruct (stable_roundtrip _ Hs) as (j' & Hj' & Hv').
  unfold Js.clone, Js.JSON_parse. rewrite Hj', Hv'. reflexivity.
Qed.

Lemma cloneRecord_image (r : HistoryRecord Js.Prim) :
  Js.cloneRecord r =
    Some {| value := Js.image (value r); timestamp := timestamp r |}.
Proof. destruct r as [[| |b|[]|s] t]; reflexivity. Qed.

Lemma clonePrim_image (p : Js.Prim) :
  Js.clonePrim p =
    match p with Js.Undefined => None | _ => Some (Js.image p) end.
Proof. destruct p as [| |b|[]|s]; reflexivity. Qed.

Lemma image_stable (p : Js.Prim) : Js.stablePrim p = true -> Js.image p = p.
Proof. destruct p as [| |b|[]|s]; try discriminate; reflexivity. Qed.

(** X11. The callback with the real [clone] never throws, and what it does
    is what the callback of the claims does with the JSON image of the old
    value: [NaN] and the infinities are recorded as [null], [-0] as [0],
    [undefined] as a record without a value; every other primitive as
    itself. *)
Theorem X11_handler_records_the_json_image (s : Tracker Js.Prim)
    (newVal old : Js.Prim) (now : Z) :
  Js.handler newVal old now s =
    Js.Returned (handler newVal (Js.image old) now s) /\
  (Js.stablePrim old = true ->
   Js.handler newVal old now s = Js.Returned (handler newVal old now s)).
Proof.
  assert (H1 : Js.handler newVal old now s =
               Js.Returned (handler newVal (Js.image old) now s)).
  { unfold Js.handler, handler.
    destruct (doingUndo s || doingRedo s); [reflexivity|].
    cbv zeta. destruct (cap_is _ 0); [reflexivity|].
    rewrite cloneRecord_image. reflexivity. }
  split; [exact H1|]. intros Hs. rewrite H1, (image_stable old Hs). reflexivity.
Qed.

(** While a flag is up and no reset is waiting, the watcher ignores every
    assignment. *)
Lemma flag_up_ignores_assignments (ms : list (T * Z)) :
  forall (src : T) cap h f (du dr : bool) lc lt (pending : bool),
  du || dr = true ->
  (lt = true -> exceeds (length h) cap = false) ->
  (pending = true -> lt = true) ->
  let s1 := mkTracker src cap h f du dr lc src lt
              (if pending then [CapacityEffect] else []) pending
              (if pending then [FlushJobs] else []) in
  history (mutate ms s1) = h /\ future (mutate ms s1) = f /\
  doingUndo (mutate ms s1) = du /\ doingRedo (mutate ms s1) = dr.
Proof.
  induction ms as [|[v now] ms IH]; intros src cap h f du dr lc lt pending Hf Hx Hp s1.
  - subst s1. cbn. auto.
  - cbn [mutate].
    assert (Hs : settle (SetSource v) now s1 =
                 mkTracker v cap h f du dr lc v lt [] false []).
    { subst s1. destruct pending; [rewrite (Hp eq_refl) in *|];
        destruct du, dr; try discriminate Hf;
        crunch; try congruence; try reflexivity; exfalso; cap_arith. }
    rewrite Hs. apply (IH v cap h f du dr lc lt false); auto. discriminate.
Qed.


Lemma undo_keeps_source (s : St) (rest : list (HistoryRecord T)) (b : bool) :
  source (historyChanged (set_history rest (set_doingUndo b s))) = source s.
Proof.
  destruct s as [src cap h f du dr lc ov lt q cfp mt]. crunch; reflexivity.
Qed.

End Proofs.

(** * The scenarios *)

Example assigned_state :
  Scenario.assigned =
    {| source := 3; capacity := Finite 4;
       history := [ {| value := 2; timestamp := 20 |};
                    {| value := 1; timestamp := 10 |};
                    {| value := 0; timestamp := 0 |} ];
       future := []; doingUndo := false; doingRedo := false;
       lastChanged := 30; oldValue := 3; lengthTracked := true;
       queue := []; currentFlushPromise := false; microtasks := [] |}.
Proof. vm_compute. reflexivity. Qed.

Example undone_state :
  Scenario.undone =
    {| source := 2; capacity := Finite 4;
       history := [ {| value := 1; timestamp := 10 |};
                    {| value := 0; timestamp := 0 |} ];
       future := [ {| value := 3; timestamp := 40 |} ];
       doingUndo := false; doingRedo := false;
       lastChanged := 30; oldValue := 2; lengthTracked := true;
       queue := []; currentFlushPromise := false; microtasks := [] |}.
Proof. vm_compute. reflexivity. Qed.

(** Between the call and the await the flag is up, the [watch] job and the
    flush are waiting, and the reset comes after the flush. *)
Example undo_before_await :
  let s := undo 40 Scenario.assigned in
  doingUndo s = true /\ source s = 2 /\
  queue s = [CapacityEffect; WatchSource] /\
  microtasks s = [FlushJobs; ResetUndo].
Proof. vm_compute. auto. Qed.

(** The truncating run leaves the effect without a subscription to the
    array it has installed. *)
Example shrunk_state :
  Scenario.shrunk =
    {| source := 2; capacity := Finite 1;
       history := [ {| value := 1; timestamp := 10 |} ];
       future := [ {| value := 3; timestamp := 40 |} ];
       doingUndo := false; doingRedo := false;
       lastChanged := 30; oldValue := 2; lengthTracked := false;
       queue := []; currentFlushPromise := false; microtasks := [] |}.
Proof. vm_compute. reflexivity. Qed.

(** Two assignments before one await are seen by the watcher as one
    change. *)
Example batched_writes :
  historyValues
    (tick 20 (setSource 2 (setSource 1 (useRefHistory 0 Infinity 0)))) = [0].
Proof. vm_compute. reflexivity. Qed.

(** An assignment made before the undo has settled is seen by the watcher
    while the flag is up, and ignored: [future] keeps its record. *)
Example write_during_undo_is_ignored :
  let s := tick 41 (setSource 99 (undo 40 Scenario.assigned)) in
  source s = 99 /\ historyValues s = [1; 0] /\ futureValues s = [3].
Proof. vm_compute. auto. Qed.

(** The test "allows capacity as a ref and dynamically update history when
    capacity changes". *)
Example capacity_change_test :
  let s4 := mutate [(1, 1); (2, 2); (3, 3); (4, 4)]
              (useRefHistory 0 (Finite 4) 0) in
  length (history s4) = 4%nat /\
  historyValues (settle (SetCapacity (Finite 2)) 5 s4) = [3; 2].
Proof. vm_compute. auto. Qed.

(** The test "removes the oldest record(s) when the history reaches the
    capacity". *)
Example eviction_at_capacity :
  let s4 := mutate [(1, 1); (2, 2); (3, 3); (4, 4)]
              (useRefHistory 0 (Finite 4) 0) in
  historyValues s4 = [3; 2; 1; 0] /\
  historyValues (settle (SetSource 100) 5 s4) = [4; 3; 2; 1].
Proof. vm_compute. auto. Qed.

(** C1, at three mutations and capacity 2. *)
Lemma C1_witness :
  legal (Finite 2) /\ mutating 0 [(1, 10); (2, 20); (3, 30)] /\
  length (history (mutate [(1, 10); (2, 20); (3, 30)]
                     (useRefHistory 0 (Finite 2) 0))) =
    cap_min 3 (Finite 2).
Proof.
  split; [cbn; lia|]. split; [cbn; repeat split; discriminate|].
  apply (C1_history_length_is_min 0 (Finite 2) 0 [(1, 10); (2, 20); (3, 30)]).
  - cbn. lia.
  - cbn. repeat split; discriminate.
Defined.

(** C2. The cell starts at 0 with capacity 4; after 1, 2 and 3 are assigned
    the values of [history] are 2, 1, 0 and the cell is 3; [undo()] makes
    the cell 2 with [history] 1, 0 and [future] 3; [redo()] makes the cell 3
    again with the values of [history] and [future] as before the undo.
    Whatever the clock readings. *)
Theorem C2_concrete_scenario (t0 t1 t2 t3 tu nu tr nr : Z) :
  let s3 := mutate [(1, t1); (2, t2); (3, t3)]
              (useRefHistory 0 (Finite 4) t0) in
  let s4 := settle (Undo tu) nu s3 in
  let s5 := settle (Redo tr) nr s4 in
  (historyValues s3 = [2; 1; 0] /\ source s3 = 3 /\ futureValues s3 = []) /\
  (source s4 = 2 /\ historyValues s4 = [1; 0] /\ futureValues s4 = [3]) /\
  (source s5 = 3 /\ historyValues s5 = historyValues s3 /\
   futureValues s5 = futureValues s3).
Proof.
  cbv zeta.
  repeat match goal with |- _ /\ _ => split end; vm_compute; reflexivity.
Qed.

(** C3, at a fresh tracker of capacity 0. *)
Lemma C3_witness :
  let s := useRefHistory 0 (Finite 0) 0 in
  quiescent s = true /\ 5 <> source s /\
  future (settle (SetSource 5) 10 s) = [] /\
  (capacity s = Finite 0 -> history (settle (SetSource 5) 10 s) = history s).
Proof.
  cbv zeta. split; [reflexivity|]. split; [vm_compute; discriminate|].
  apply (C3_mutation_clears_future (useRefHistory 0 (Finite 0) 0) 5 10).
  - reflexivity.
  - vm_compute. discriminate.
Defined.

(** C4, at the state after the three assignments. *)
Lemma C4_witness :
  quiescent Scenario.assigned = true /\ history Scenario.assigned <> [] /\
  source (settle (Redo 50) 51 (settle (Undo 40) 41 Scenario.assigned)) = 3 /\
  source (tick 51 (redo 50 (undo 40 Scenario.assigned))) = 3.
Proof.
  split; [reflexivity|]. split; [vm_compute; discriminate|].
  destruct (C4_undo_redo_roundtrip Scenario.assigned 40 41 50 51)
    as [(H1 & _) (H2 & _)].
  - reflexivity.
  - vm_compute. discriminate.
  - split; [rewrite H1|rewrite H2]; reflexivity.
Defined.

(** C5, shrinking from 4 to 2 with three records, then growing to 10. *)
Lemma C5_witness :
  quiescent Scenario.assigned = true /\
  Finite 2 <> capacity Scenario.assigned /\
  0 <= 2 < Z.of_nat (length (history Scenario.assigned)) /\
  historyValues (settle (SetCapacity (Finite 2)) 40 Scenario.assigned) = [2; 1] /\
  history (settle (SetCapacity (Finite 10)) 50
             (settle (SetCapacity (Finite 2)) 40 Scenario.assigned)) =
    history (settle (SetCapacity (Finite 2)) 40 Scenario.assigned).
Proof.
  split; [reflexivity|]. split; [vm_compute; discriminate|].
  split; [split; [vm_compute; discriminate | vm_compute; reflexivity]|].
  destruct (C5_shrink_truncates_grow_keeps Scenario.assigned 2 40)
    as (H1 & _ & _ & H4).
  - reflexivity.
  - vm_compute. discriminate.
  - split; [vm_compute; discriminate | vm_compute; reflexivity].
  - split.
    + unfold historyValues. rewrite H1. vm_compute. reflexivity.
    + apply H4. cbn. lia.
Defined.

(** C6, the failing run: undo, then the capacity shrinks below the length
    of [history], then redo.  After the await following [redo()] the
    capacity is 1 and [history] holds two records. *)
Theorem C6_redo_after_truncation_exceeds_capacity :
  Settled Scenario.redone /\
  capacity Scenario.redone = Finite 1 /\
  historyValues Scenario.redone = [2; 1] /\
  exceeds (length (history Scenario.redone)) (capacity Scenario.redone) = true.
Proof.
  split.
  - unfold Scenario.redone, Scenario.shrunk, Scenario.undone, Scenario.assigned.
    do 3 apply Settled_settle. apply Settled_mutate, Settled_fresh.
  - vm_compute. auto.
Qed.

(** From there every assignment adds a record and none is dropped. *)
Example overflow_keeps_growing :
  historyValues
    (mutate [(7, 70); (8, 80); (9, 90)] Scenario.redone) = [8; 7; 3; 2; 1].
Proof. vm_compute. reflexivity. Qed.

(** C7, the failing run: 2 is assigned at clock 20 and 3 at clock 30;
    [undo()] at clock 40 makes 2 the current value again; the assignment of
    5 at clock 50 records 2 with the clock reading 30, the reading at which
    3 was assigned, when the cell did not hold 2. *)
Theorem C7_timestamp_after_undo_is_stale :
  source Scenario.assigned = 3 /\ lastChanged Scenario.assigned = 30 /\
  source Scenario.undone = 2 /\ lastChanged Scenario.undone = 30 /\
  history Scenario.reassigned =
    [ {| value := 2; timestamp := 30 |};
      {| value := 1; timestamp := 10 |};
      {| value := 0; timestamp := 0 |} ].
Proof. vm_compute. auto 10. Qed.

(** C8, at a fresh tracker: both lists are empty. *)
Lemma C8_witness :
  let s := useRefHistory 0 (Finite 4) 0 in
  quiescent s = true /\ history s = [] /\ future s = [] /\
  settle (Undo 10) 11 s = s /\ settle (Redo 10) 11 s = s.
Proof.
  cbv zeta. split; [reflexivity|]. split; [reflexivity|]. split; [reflexivity|].
  destruct (C8_empty_undo_redo_noop (useRefHistory 0 (Finite 4) 0) 10 11)
    as [Hu Hr]; [reflexivity|].
  split.
  - apply Hu. reflexivity.
  - apply Hr. reflexivity.
Defined.

(** C9 as stated fails: after the cell has gone from 0 to 1 and back to 0,
    the current value 0 is the value of the oldest record. *)
Lemma C9_counterexample :
  ~ (forall s : Tracker Z, Settled s -> ~ In (source s) (historyValues s)).
Proof.
  intros Hc. apply (Hc Scenario.returned).
  - unfold Scenario.returned. apply Settled_mutate, Settled_fresh.
  - vm_compute. auto.
Qed.

(** The assignment of 9 after the three assignments records 3. *)
Example mutation_records_previous_value_at_9 :
  quiescent Scenario.assigned = true /\ 9 <> source Scenario.assigned /\
  cap_is (capacity Scenario.assigned) 0 = false /\
  exists r rest,
    history (settle (SetSource 9) 40 Scenario.assigned) = r :: rest /\
    value r = source Scenario.assigned /\
    value r <> source (settle (SetSource 9) 40 Scenario.assigned).
Proof.
  split; [reflexivity|]. split; [vm_compute; discriminate|].
  split; [reflexivity|].
  apply (mutation_records_previous_value Scenario.assigned 9 40).
  - reflexivity.
  - vm_compute. discriminate.
  - reflexivity.
Qed.

(** The state [inFlight] is the one [handler] runs in when 7 is assigned to
    the cell of [emptied]. *)
Example inFlight_is_handler_state :
  settle (SetSource 7) 70 Scenario.emptied =
    set_currentFlushPromise false
      (set_oldValue 7 (handler 7 3 70 Scenario.inFlight)).
Proof. vm_compute. reflexivity. Qed.

(** C10 as stated fails: with capacity 0 and one record in [history] the
    length exceeds the capacity, and the callback returns before it records
    anything. *)
Lemma C10_counterexample :
  ~ (forall (s : Tracker Z) (newVal old : Z) (now : Z),
       doingUndo s = false -> doingRedo s = false ->
       exceeds (length (history s)) (capacity s) = true ->
       history (handler newVal old now s) =
         {| value := old; timestamp := lastChanged s |} :: history s).
Proof.
  intros Hc. specialize (Hc Scenario.inFlight 7 3 70).
  vm_compute in Hc.
  specialize (Hc eq_refl eq_refl eq_refl). discriminate Hc.
Qed.

(** C10 amended, at the overflowing state after the redo. *)
Lemma C10_witness :
  doingUndo Scenario.redone = false /\ doingRedo Scenario.redone = false /\
  cap_is (capacity Scenario.redone) 0 = false /\
  exceeds (length (history Scenario.redone)) (capacity Scenario.redone) = true /\
  length (history (handler 7 3 70 Scenario.redone)) = 3%nat.
Proof.
  split; [reflexivity|]. split; [reflexivity|]. split; [reflexivity|].
  split; [reflexivity|].
  destruct (C10_eviction_only_at_capacity Scenario.redone 7 3 70)
    as [_ Ho]; [reflexivity..|].
  destruct Ho as (_ & Hl & _); [reflexivity|].
  rewrite Hl. reflexivity.
Defined.

(** * The closures with the clone of the source *)

(** X12. When the first record of [history] has no value (the cell held
    [undefined] when it was recorded), [undo()] throws: [clone] of
    [undefined] fails in [JSON.parse].  By then the record is gone from
    [history], the current value is on [future], the cell is unchanged, the
    flag is up and its reset has not been scheduled; from then on the
    watcher ignores every assignment. *)
Theorem X12_undo_throws_on_a_record_without_value (s : Tracker Js.Prim)
    (t : Z) r rest :
  quiescent s = true -> history s = r :: rest -> value r = Js.Undefined ->
  exists s1, Js.undo t s = Js.Threw s1 /\
    source s1 = source s /\ history s1 = rest /\
    future s1 =
      {| value := Js.image (source s); timestamp := t |} :: future s /\
    doingUndo s1 = true /\ ~ In ResetUndo (microtasks s1) /\
    forall ms,
      history (mutate ms s1) = rest /\
      future (mutate ms s1) = future s1 /\
      doingUndo (mutate ms s1) = true.
Proof.
  intros Hq Hh Hr. apply quiescent_inv in Hq.
  destruct s as [src cap h f du dr lc ov lt q cfp mt]. cbn in Hq, Hh.
  destruct Hq as (-> & -> & -> & -> & -> & -> & Hlt). subst h.
  unfold Js.undo. cbn -[Js.cloneRecord Js.clonePrim].
  rewrite cloneRecord_image. cbn -[Js.cloneRecord Js.clonePrim].
  rewrite clonePrim_image, Hr.
  eexists. split; [reflexivity|].
  assert (Hx : lt = true -> exceeds (length rest) cap = false).
  { intros Ht. specialize (Hlt Ht). cbn [length] in Hlt.
    destruct cap as [c|]; [|reflexivity]. unfold exceeds in *.
    apply Z.ltb_ge in Hlt. apply Z.ltb_ge. lia. }
  destruct lt; cbn; repeat split; auto; try solve [intuition discriminate].
  all: first
    [ apply (flag_up_ignores_assignments ms src cap rest _ true false lc true true);
      auto
    | apply (flag_up_ignores_assignments ms src cap rest _ true false lc false false);
      auto; discriminate ].
Qed.

(** X13. The same for [redo()] when the first record of [future] has no
    value (the cell held [undefined] when [undo()] was called): it throws
    with the record gone from [future], the current value on [history], the
    cell unchanged and the redo flag up with no reset scheduled. *)
Theorem X13_redo_throws_on_a_record_without_value (s : Tracker Js.Prim)
    (t : Z) r rest :
  quiescent s = true -> future s = r :: rest -> value r = Js.Undefined ->
  exists s1, Js.redo t s = Js.Threw s1 /\
    source s1 = source s /\ future s1 = rest /\
    history s1 =
      {| value := Js.image (source s); timestamp := t |} :: history s /\
    doingRedo s1 = true /\ ~ In ResetRedo (microtasks s1).
Proof.
  intros Hq Hh Hr. apply quiescent_inv in Hq.
  destruct s as [src cap h f0 du dr lc ov lt q cfp mt]. cbn in Hq, Hh.
  destruct Hq as (-> & -> & -> & -> & -> & -> & Hlt). subst f0.
  unfold Js.redo. cbn -[Js.cloneRecord Js.clonePrim].
  rewrite cloneRecord_image. cbn -[Js.cloneRecord Js.clonePrim].
  rewrite clonePrim_image, Hr.
  eexists. split; [reflexivity|].
  destruct lt; cbn; repeat split; auto; intuition discriminate.
Qed.

(** X14. On JSON-stable values [undo()] and [redo()] with the real [clone]
    return, and do what the [undo] and [redo] of the claims do. *)
Theorem X14_undo_redo_agree_on_stable_values (s : Tracker Js.Prim) (t : Z) :
  Js.stablePrim (source s) = true ->
  (forall r rest, history s = r :: rest -> Js.stablePrim (value r) = true) ->
  (forall r rest, future s = r :: rest -> Js.stablePrim (value r) = true) ->
  Js.undo t s = Js.Returned (undo t s) /\
  Js.redo t s = Js.Returned (redo t s).
Proof.
  intros Hs Hh Hf. unfold Js.undo, Js.redo, undo, redo, clone. cbv zeta. split.
  - replace (history (set_doingUndo true s)) with (history s)
      by (destruct s; reflexivity).
    destruct (history s) as [|r rest] eqn:Eh; [reflexivity|].
    specialize (Hh r rest eq_refl).
    rewrite cloneRecord_image, clonePrim_image. cbn [value timestamp].
    rewrite undo_keeps_source, (image_stable _ Hs), (image_stable _ Hh).
    destruct (value r); try discriminate Hh; reflexivity.
  - replace (future (set_doingRedo true s)) with (future s)
      by (destruct s; reflexivity).
    destruct (future s) as [|r rest] eqn:Ef; [reflexivity|].
    specialize (Hf r rest eq_refl).
    rewrite cloneRecord_image, clonePrim_image. cbn [value timestamp].
    replace (source (set_future rest (set_doingRedo true s))) with (source s)
      by (destruct s; reflexivity).
    rewrite (image_stable _ Hs), (image_stable _ Hf).
    destruct (value r); try discriminate Hf; reflexivity.
Qed.

(** * Instances of the further properties *)

(** [clone] on values that are not JSON-stable. *)
Example clone_examples :
  Js.clone (Js.Primitive (Js.Number Js.NaN)) = Some (Js.Primitive Js.Null) /\
  Js.clone (Js.Primitive (Js.Number Js.NegZero)) =
    Some (Js.Primitive (Js.Number (Js.Int 0))) /\
  Js.clone (Js.Primitive Js.Undefined) = None /\
  Js.clone Js.Function = None /\
  Js.clone (Js.Array [Js.Primitive Js.Undefined; Js.Function]) =
    Some (Js.Array [Js.Primitive Js.Null; Js.Primitive Js.Null]) /\
  Js.clone (Js.Object [("a"%string, Js.Primitive Js.Undefined);
                       ("b"%string, Js.Primitive (Js.Bool true))]) =
    Some (Js.Object [("b"%string, Js.Primitive (Js.Bool true))]).
Proof. vm_compute. auto 10. Qed.

(** The callback records [NaN] as [null]. *)
Example handler_records_null_for_NaN :
  exists s, Js.handler (Js.Number (Js.Int 1)) (Js.Number Js.NaN) 10
              (useRefHistory (Js.Number Js.NaN) Infinity 0) = Js.Returned s /\
            historyValues s = [Js.Null].
Proof. eexists. split; vm_compute; reflexivity. Qed.

(** The remaining assertions of the test-suite, tests/useRefHistory.test.ts:
    "stores the history of the source value", "does NOT include the current
    value in history", "stores the history ordered from newest to oldest"
    (the first assignment of the loop stores the value the cell holds), and
    the two tests of undo and redo. *)
Example test_suite_assertions :
  (let s := useRefHistory 1 Infinity 0 in
   length (history s) = 0%nat /\
   hd_error (historyValues (settle (SetSource 2) 1 s)) = Some 1 /\
   hd_error (historyValues (mutate [(2, 1); (3, 2)] s)) = Some 2) /\
  hd_error (historyValues (settle (SetSource 1) 1 (useRefHistory 0 Infinity 0)))
    = Some 0 /\
  (let s := mutate [(0, 0); (1, 1); (2, 2); (3, 3); (4, 4); (5, 5); (6, 6);
                    (7, 7); (8, 8); (9, 9)] (useRefHistory 0 Infinity 0) in
   hd_error (historyValues s) = Some 8 /\
   List.last (historyValues s) 99 = 0) /\
  (let s := mutate [(0, 0); (1, 1); (2, 2); (3, 3)]
              (useRefHistory 0 (Finite 4) 0) in
   source s = 3 /\
   source (settle (Undo 4) 5 s) = 2 /\
   source (settle (Redo 6) 7 (settle (Undo 4) 5 s)) = 3).
Proof.
  cbv zeta.
  repeat match goal with |- _ /\ _ => split end; vm_compute; reflexivity.
Qed.

(** C9 amended, at a run in which the cell returns to 0 and the last
    assignment is undone and redone: [history] is 1, 0 and the cell 0. *)
Lemma C9_witness :
  forallb keepsCapacity
    (map fst [(SetSource 1, 10); (SetSource 0, 20); (Undo 30, 31);
              (Redo 40, 41)]) = true /\
  (let s := run [(SetSource 1, 10); (SetSource 0, 20); (Undo 30, 31);
                 (Redo 40, 41)] (useRefHistory 0 Infinity 0) in
   distinctNeighbours (timeline s) /\
   forall r rest, history s = r :: rest -> value r <> source s).
Proof.
  split; [reflexivity|].
  apply (C9_newest_record_differs_from_cell
           [(SetSource 1, 10); (SetSource 0, 20); (Undo 30, 31); (Redo 40, 41)]
           0 Infinity 0).
  reflexivity.
Defined.

Example returned_undone_redone :
  let s := run [(SetSource 1, 10); (SetSource 0, 20); (Undo 30, 31);
                (Redo 40, 41)] (useRefHistory 0 Infinity 0) in
  source s = 0 /\ historyValues s = [1; 0].
Proof. vm_compute. auto. Qed.

(** With calls grouped before one await, or after a change of the capacity,
    the newest record can hold the cell's value: the proviso of C9. *)
Example newest_record_can_equal_cell :
  (let s := tick 41 (setSource 1 (undo 40 Scenario.assigned)) in
   source s = 1 /\ historyValues s = [1; 0]) /\
  (let s := settle (SetSource 2) 70 Scenario.emptied in
   source s = 2 /\ historyValues s = [2]).
Proof.
  cbv zeta.
  repeat match goal with |- _ /\ _ => split end; vm_compute; reflexivity.
Qed.

(** X1, at three assignments and capacity 2. *)
Lemma X1_witness :
  legal (Finite 2) /\ mutating 0 [(1, 10); (2, 20); (3, 30)] /\
  history (mutate [(1, 10); (2, 20); (3, 30)] (useRefHistory 0 (Finite 2) 0)) =
    [ {| value := 2; timestamp := 20 |}; {| value := 1; timestamp := 10 |} ].
Proof.
  split; [cbn; lia|]. split; [cbn; repeat split; discriminate|].
  rewrite (X1_history_holds_previous_values 0 (Finite 2) 0
             [(1, 10); (2, 20); (3, 30)]).
  - reflexivity.
  - cbn. lia.
  - cbn. repeat split; discriminate.
Defined.

(** X2, at capacity -1. *)
Lemma X2_witness :
  -1 < 0 /\ mutating 0 [(1, 10); (2, 20)] /\
  history (mutate [(1, 10); (2, 20)] (useRefHistory 0 (Finite (-1)) 0)) =
    [ {| value := 1; timestamp := 10 |}; {| value := 0; timestamp := 0 |} ].
Proof.
  split; [lia|]. split; [cbn; repeat split; discriminate|].
  rewrite (X2_negative_capacity_keeps_everything 0 (-1) 0 [(1, 10); (2, 20)]).
  - reflexivity.
  - lia.
  - cbn. repeat split; discriminate.
Defined.

(** X3, at the assignments 7, 8, 9 made in one tick. *)
Lemma X3_witness :
  quiescent Scenario.assigned = true /\
  historyValues (tick 40 (assign [7; 8; 9] Scenario.assigned)) = [3; 2; 1; 0].
Proof.
  split; [vm_compute; reflexivity|].
  rewrite (X3_assignments_before_one_await_coalesce Scenario.assigned [7; 8; 9] 40).
  - vm_compute. reflexivity.
  - vm_compute. reflexivity.
Defined.

(** X4, at the assignment of 99 around the undo of the scenario. *)
Lemma X4_witness :
  quiescent Scenario.assigned = true /\
  futureValues (tick 41 (setSource 99 (undo 40 Scenario.assigned))) = [3] /\
  futureValues (tick 41 (undo 40 (setSource 99 Scenario.assigned))) = [99].
Proof.
  split; [vm_compute; reflexivity|].
  destruct (X4_assignment_in_the_tick_of_undo_is_not_recorded
              Scenario.assigned 99 40 41
              {| value := 2; timestamp := 20 |}
              [ {| value := 1; timestamp := 10 |};
                {| value := 0; timestamp := 0 |} ]) as [H1 H2].
  - vm_compute. reflexivity.
  - vm_compute. reflexivity.
  - split.
    + rewrite H1; [vm_compute; reflexivity|]. left. vm_compute. reflexivity.
    + rewrite H2. vm_compute. reflexivity.
Defined.

(** X5, at two undos and a redo. *)
Lemma X5_witness :
  quiescent Scenario.assigned = true /\ roomy Scenario.assigned /\
  timeline (run [(Undo 40, 41); (Undo 42, 43); (Redo 44, 45)] Scenario.assigned) =
    [3; 2; 1; 0].
Proof.
  split; [vm_compute; reflexivity|].
  split; [intros _; vm_compute; reflexivity|].
  rewrite (X5_undo_redo_keep_the_timeline
             [(Undo 40, 41); (Undo 42, 43); (Redo 44, 45)] Scenario.assigned).
  - vm_compute. reflexivity.
  - vm_compute. reflexivity.
  - intros _. vm_compute. reflexivity.
  - reflexivity.
Defined.

(** X6, at a run of assignments, undos and a redo with capacity 2. *)
Lemma X6_witness :
  legal (Finite 2) /\
  exceeds
    (length (history (run [(SetSource 1, 10); (SetSource 2, 20); (Undo 30, 31);
                           (Undo 40, 41); (Redo 50, 51); (SetSource 3, 60)]
                        (useRefHistory 0 (Finite 2) 0))) +
     length (future (run [(SetSource 1, 10); (SetSource 2, 20); (Undo 30, 31);
                          (Undo 40, 41); (Redo 50, 51); (SetSource 3, 60)]
                       (useRefHistory 0 (Finite 2) 0))))
    (Finite 2) = false.
Proof.
  split; [cbn; lia|].
  apply (X6_fixed_capacity_bounds_history_and_future
           [(SetSource 1, 10); (SetSource 2, 20); (Undo 30, 31);
            (Undo 40, 41); (Redo 50, 51); (SetSource 3, 60)] 0 (Finite 2) 0).
  - cbn. lia.
  - reflexivity.
Defined.

(** X7, at the capacities 2, 10, 1 after the three assignments. *)
Lemma X7_witness :
  quiescent Scenario.assigned = true /\
  historyValues
    (resize [(Finite 2, 40); (Finite 10, 50); (Finite 1, 60)] Scenario.assigned)
    = [2].
Proof.
  split; [vm_compute; reflexivity|].
  unfold historyValues.
  rewrite (X7_capacity_changes_compose
             [(Finite 2, 40); (Finite 10, 50); (Finite 1, 60)] Scenario.assigned).
  - vm_compute. reflexivity.
  - vm_compute. reflexivity.
  - vm_compute. reflexivity.
  - repeat constructor; cbn; lia.
Defined.

(** X8, at an undo and an assignment made before one await. *)
Lemma X8_witness :
  Settled (tick 41 (call (SetSource 99) (call (Undo 40) Scenario.assigned))) /\
  doingUndo (tick 41 (call (SetSource 99) (call (Undo 40) Scenario.assigned)))
    = false.
Proof.
  assert (Hs : Settled (tick 41 (call (SetSource 99)
                                   (call (Undo 40) Scenario.assigned)))).
  { apply Settled_tick, Reachable_call, Reachable_call, Settled_Reachable.
    unfold Scenario.assigned. apply Settled_mutate, Settled_fresh. }
  split; [exact Hs|].
  destruct (X8_every_await_resets_the_flags _ Hs) as (Hu & _). exact Hu.
Defined.

(** X10, at an array of values without JSON text. *)
Lemma X10_witness :
  Js.clone (Js.Array [Js.Primitive (Js.Number Js.NaN); Js.Function]) =
    Some (Js.Array [Js.Primitive Js.Null; Js.Primitive Js.Null]) /\
  Js.clone (Js.Array [Js.Primitive Js.Null; Js.Primitive Js.Null]) =
    Some (Js.Array [Js.Primitive Js.Null; Js.Primitive Js.Null]).
Proof.
  split; [reflexivity|].
  apply (X10_clone_returns_stable_values
           (Js.Array [Js.Primitive (Js.Number Js.NaN); Js.Function])).
  reflexivity.
Defined.

(** X12, at a cell created empty and then assigned 1. *)
Lemma X12_witness :
  let s := settle (SetSource (Js.Number (Js.Int 1))) 10
             (useRefHistory Js.Undefined Infinity 0) in
  quiescent s = true /\
  exists s1, Js.undo 20 s = Js.Threw s1 /\ doingUndo s1 = true /\
    historyValues (mutate [(Js.Number (Js.Int 2), 30)] s1) = [].
Proof.
  cbv zeta. split; [vm_compute; reflexivity|].
  destruct (X12_undo_throws_on_a_record_without_value
              (settle (SetSource (Js.Number (Js.Int 1))) 10
                 (useRefHistory Js.Undefined Infinity 0)) 20
              {| value := Js.Undefined; timestamp := 0 |} [])
    as (s1 & H1 & _ & _ & _ & H5 & _ & H7).
  - vm_compute. reflexivity.
  - vm_compute. reflexivity.
  - reflexivity.
  - exists s1. split; [exact H1|]. split; [exact H5|].
    unfold historyValues.
    destruct (H7 [(Js.Number (Js.Int 2), 30)]) as (-> & _). reflexivity.
Defined.

(** X13, at a cell set to [undefined] and undone. *)
Lemma X13_witness :
  let s := settle (Undo 30) 31
             (settle (SetSource Js.Undefined) 20
                (useRefHistory (Js.Number (Js.Int 1)) Infinity 0)) in
  quiescent s = true /\
  exists s1, Js.redo 40 s = Js.Threw s1 /\ doingRedo s1 = true.
Proof.
  cbv zeta. split; [vm_compute; reflexivity|].
  destruct (X13_redo_throws_on_a_record_without_value
              (settle (Undo 30) 31
                 (settle (SetSource Js.Undefined) 20
                    (useRefHistory (Js.Number (Js.Int 1)) Infinity 0))) 40
              {| value := Js.Undefined; timestamp := 30 |} [])
    as (s1 & H1 & _ & _ & _ & H5 & _).
  - vm_compute. reflexivity.
  - vm_compute. reflexivity.
  - reflexivity.
  - exists s1. split; [exact H1|exact H5].
Defined.

(** X14, at a cell of integers. *)
Lemma X14_witness :
  let s := mutate [(Js.Number (Js.Int 1), 10)]
             (useRefHistory (Js.Number (Js.Int 0)) (Finite 4) 0) in
  Js.stablePrim (source s) = true /\
  Js.undo 20 s = Js.Returned (undo 20 s) /\
  Js.redo 20 s = Js.Returned (redo 20 s).
Proof.
  cbv zeta. split; [vm_compute; reflexivity|].
  apply X14_undo_redo_agree_on_stable_values.
  - vm_compute. reflexivity.
  - intros r rest Hh. vm_compute in Hh. injection Hh as <- _. reflexivity.
  - intros r rest Hf. vm_compute in Hf. discriminate Hf.
Defined.
